(** * chirpchirp: Fibonacci coding, chirp synthesis and correlation demodulation

    A shallow embedding of [chirpchirp.py].  Python integers that the program
    only ever uses as non-negative counters and byte values are natural
    numbers; a bit is the natural number 0 or 1, as the program stores it in
    its lists and in its queue; PCM samples are integers; numpy arrays of
    floats are lists of real numbers, so rounding is left out and what is
    kept of floating point is what decides control flow: a division by zero
    yields a NaN or an infinity, and a comparison with a NaN is false.  The
    program is a Python 2 program ([unichr], the slice bound [n / 2]): [/]
    between integers is floor division. *)

From Stdlib Require Import Arith ZArith List Lia Bool Reals Lra Permutation.
From Equations Require Import Equations.
Import ListNotations.

(** ** The codec *)

(** [def F(n)]: the unmemoized double recursion of the source. *)
Fixpoint F (n : nat) : nat :=
  match n with
  | 0 => 0
  | S n' =>
      match n' with
      | 0 => 1
      | S n'' => F n' + F n''
      end
  end.

(** [while F(n) <= x: n = n + 1], entered with [n]; the value is the [n] the
    loop leaves behind.  It terminates because [F n] is at least [n - 1]. *)
Equations? while_F (x n : nat) : nat by wf (S (S x) - n) lt :=
  while_F x n with le_lt_dec (F n) x := {
    | left _ => while_F x (S n)
    | right _ => n }.
Proof.
  assert (G : forall k, k <= S (F k) /\ S k <= S (F (S k)) /\
                        1 <= F (S k) /\ (k = 0 \/ 1 <= F k)).
  { induction k as [|k IH]; [simpl; lia|].
    change (F (S (S k))) with (F (S k) + F k). lia. }
  destruct (G n) as [G1 _]. destruct n as [|[|n]]; lia.
Defined.

(** [range(start, stop, -1)]: start, start - 1, ..., stop + 1. *)
Definition range_down (start stop : nat) : list nat :=
  rev (seq (S stop) (start - stop)).

(** The body of the [for] loop of [encode], on the remainder [r] and the
    list [b]. *)
Definition encode_body (st : nat * list nat) (i : nat) : nat * list nat :=
  let (r, b) := st in
  if F i <=? r then (r - F i, b ++ [1]) else (r, b ++ [0]).

(** [def encode(x)]. *)
Definition encode (x : nat) : list nat :=
  let n := while_F x 1 in
  let (_, b) := fold_left encode_body (range_down (n - 1) 1) (x, []) in
  rev b ++ [1].

(** [enumerate(l)]. *)
Definition enumerate {A : Type} (l : list A) : list (nat * A) :=
  combine (seq 0 (length l)) l.

(** [def decode(x)]; [x[:-1]] is [removelast x], also on the empty list. *)
Definition decode (x : list nat) : nat :=
  fold_left (fun w (ib : nat * nat) => w + F (fst ib + 2) * snd ib)
            (enumerate (removelast x)) 0.

(** [def tobits(bytes)]: the generator yields the codewords back to back. *)
Definition tobits (bytes : list nat) : list nat := flat_map encode bytes.

(** [def tobyte(bits)]. *)
Definition tobyte (bits : list nat) : nat := decode bits.

(** ** The stream assembler: the receive loop of [__main__] *)

(** [bits[-2:]]: the last two elements, or the whole list when it is
    shorter. *)
Definition last_two (bits : list nat) : list nat :=
  skipn (length bits - 2) bits.

(** [bits[-2:] == [1, 1]]. *)
Definition codeword_end (bits : list nat) : bool :=
  if list_eq_dec Nat.eq_dec (last_two bits) [1; 1] then true else false.

(** The greatest argument of [unichr]: [0x10FFFF], on a wide build of
    Python 2. *)
Definition UNICHR_MAX : N := 1114111.

(** [unichr(i)]: the character of code point [i], kept as its code point;
    [None] is the [ValueError] for an argument out of range. *)
Definition unichr (i : nat) : option nat :=
  if (N.of_nat i <=? UNICHR_MAX)%N then Some i else None.

(** Where the receive loop stands: still running, or left by an exception.
    Either way the state is the accumulator [bits] and the code points
    written to [sys.stdout] so far, the sink taking every character. *)
Inductive rx_outcome : Type :=
| Running (st : list nat * list nat)
| Raised (st : list nat * list nat).

Definition outcome_state (o : rx_outcome) : list nat * list nat :=
  match o with
  | Running st => st
  | Raised st => st
  end.

(** One turn of [while stream.is_active()].  The event is what
    [q.get_nowait()] gave: [None] for [queue.Empty] ([continue]), or a bit.
    When [unichr] raises, nothing is written and the accumulator is not
    cleared. *)
Definition rx_step (st : list nat * list nat) (ev : option nat)
  : rx_outcome :=
  match ev with
  | None => Running st
  | Some bit =>
      let bits := fst st ++ [bit] in
      if codeword_end bits then
        match unichr (tobyte bits) with
        | Some c => Running ([], snd st ++ [c])
        | None => Raised (bits, snd st)
        end
      else Running (bits, snd st)
  end.

(** The loop over the polls that happen while the stream is active; an
    exception ends it. *)
Fixpoint rx_loop (evs : list (option nat)) (st : list nat * list nat)
  : rx_outcome :=
  match evs with
  | [] => Running st
  | ev :: rest =>
      match rx_step st ev with
      | Running st' => rx_loop rest st'
      | Raised st' => Raised st'
      end
  end.

(** The assembler started as [__main__] starts it, fed a gapless stream. *)
Definition assemble (stream : list nat) : rx_outcome :=
  rx_loop (map Some stream) ([], []).

(** ** Fibonacci numbers without the double recursion

    Following the design note of the specification: an iterative
    computation and a memoized table, to stand in for [F]. *)

Fixpoint fib_loop (n a b : nat) : nat :=
  match n with
  | 0 => a
  | S n' => fib_loop n' b (a + b)
  end.

(** Iterative: [n] steps of [(a, b) := (b, a + b)] from [(0, 1)]. *)
Definition F_iter (n : nat) : nat := fib_loop n 0 1.

(** The table of the first [len] Fibonacci numbers, filled left to right
    from the two entries before. *)
Fixpoint fib_fill (len a b : nat) : list nat :=
  match len with
  | 0 => []
  | S len' => a :: fib_fill len' b (a + b)
  end.

Definition fib_table (len : nat) : list nat := fib_fill len 0 1.

(** Memoized: look [n] up in a table that reaches it. *)
Definition F_memo (n : nat) : nat := nth n (fib_table (S n)) 0.

(** The fixed table for byte values: indices 0 to 14, since
    [F 14 = 377 > 255]. *)
Definition BYTE_TABLE : list nat := fib_table 15.

Definition F_byte (n : nat) : nat := nth n BYTE_TABLE 0.

(** [encode] and [decode] with the Fibonacci function as a parameter; the
    [while] loop runs on fuel, as nothing is known of [fib]. *)
Section CodecOver.

Variable fib : nat -> nat.

Fixpoint while_over (fuel x n : nat) : option nat :=
  match fuel with
  | 0 => None
  | S fuel' => if fib n <=? x then while_over fuel' x (S n) else Some n
  end.

Definition encode_body_over (st : nat * list nat) (i : nat)
  : nat * list nat :=
  let (r, b) := st in
  if fib i <=? r then (r - fib i, b ++ [1]) else (r, b ++ [0]).

Definition encode_over (fuel x : nat) : option (list nat) :=
  match while_over fuel x 1 with
  | None => None
  | Some n =>
      let (_, b) :=
        fold_left encode_body_over (range_down (n - 1) 1) (x, []) in
      Some (rev b ++ [1])
  end.

Definition decode_over (x : list nat) : nat :=
  fold_left (fun w (ib : nat * nat) => w + fib (fst ib + 2) * snd ib)
            (enumerate (removelast x)) 0.

End CodecOver.

(** ** Chirp synthesis *)

Section Signal.

Local Open Scope R_scope.

(** [linspace]: [numpy.linspace(start, stop, num=num, endpoint=False)],
    that is [arange(0, num) * step + start] with
    [step = (stop - start) / num]. *)
Definition linspace (start stop : R) (num : nat) : list R :=
  map (fun i => INR i * ((stop - start) / INR num) + start) (seq 0 num).

(** [def chirp(bandwidth, period, samples)].  The band is a pair of
    integers, as [__main__] parses it; [None] is the [ZeroDivisionError] of
    [(fmax - fmin) / period] at a zero period. *)
Definition chirp (bandwidth : Z * Z) (period : R) (samples : nat)
  : option (list R) :=
  let t := linspace 0 period samples in
  let (fmin, fmax) := bandwidth in
  if Req_dec_T period 0 then None
  else
    let k := IZR (fmax - fmin) / period in
    Some (map (fun ti => sin (2 * PI * (ti * k / 2 + IZR fmin) * ti)) t).

(** The two reference waveforms of [__main__]:
    [one = chirp((fmin, fmax), period, samples) * amplitude] and
    [zero = one[::-1]], returned as the pair [(zero, one)]. *)
Definition references (fmin fmax : Z) (period : R) (samples : nat)
  (amplitude : R) : option (list R * list R) :=
  match chirp (fmin, fmax) period samples with
  | None => None
  | Some c =>
      let one := map (fun s => s * amplitude) c in
      let zero := rev one in
      Some (zero, one)
  end.

(** ** Correlation *)

(** [a.resize(N)] on a one-dimensional array: cut or pad with zeros. *)
Definition resize (a : list R) (N : nat) : list R :=
  firstn N a ++ repeat 0 (N - length a).

(** [sum] of an array. *)
Definition rsum (a : list R) : R := fold_right Rplus 0 a.

(** [numpy.fft.irfft(numpy.fft.rfft(x) * numpy.fft.rfft(y), n=N)] for two
    real arrays of length [N]: by the convolution theorem, their circular
    convolution. *)
Definition circular_convolution (N : nat) (x y : list R) : list R :=
  map (fun j =>
         rsum (map (fun i => nth i x 0 * nth ((j + N - i) mod N) y 0)
                   (seq 0 N)))
      (seq 0 N).

(** A slice bound of Python, brought into [0 .. len]: a negative bound
    counts from the end. *)
Definition slice_bound (len : nat) (i : Z) : nat :=
  if (i <? 0)%Z then Z.to_nat (Z.max 0 (Z.of_nat len + i))
  else Nat.min (Z.to_nat i) len.

(** [l[start:stop]]. *)
Definition slice {A : Type} (l : list A) (start stop : Z) : list A :=
  let a := slice_bound (length l) start in
  let b := slice_bound (length l) stop in
  firstn (b - a) (skipn a l).

(** [def modxcor(x, y)].  [None] is the [ValueError] that [rfft] raises on
    an array of length zero.  The stop bound [-(n / 2)] is [0] when
    [n / 2] is: the slice is then empty. *)
Definition modxcor (x y : list R) : option (list R) :=
  let m := length x in
  let n := length y in
  let x' := resize x (m + n) in
  let y' := resize (rev y) (m + n) in
  if (m + n =? 0)%nat then None
  else
    let z := circular_convolution (m + n) x' y' in
    Some (slice z (Z.of_nat (n / 2)) (- Z.of_nat (n / 2))).

(** ** Scores and decision *)

(** What a float division can give. *)
Inductive xfloat : Type :=
| XNan
| XInf (negative : bool)
| XFin (r : R).

(** [a / b] on numpy floats with [b] a non-negative zero or non-zero: a
    warning and NaN or an infinity at [b = 0], never an exception. *)
Definition xdiv (a b : R) : xfloat :=
  if Req_dec_T b 0 then
    if Req_dec_T a 0 then XNan
    else XInf (if Rlt_dec a 0 then true else false)
  else XFin (a / b).

(** [2 * k]. *)
Definition xdouble (k : xfloat) : xfloat :=
  match k with
  | XFin r => XFin (2 * r)
  | other => other
  end.

(** [a > b]: false as soon as one side is a NaN. *)
Definition xgt (a b : xfloat) : bool :=
  match a, b with
  | XNan, _ | _, XNan => false
  | XFin r, XFin s => if Rgt_dec r s then true else false
  | XInf false, XInf false => false
  | XInf false, _ => true
  | XInf true, _ => false
  | XFin _, XInf negative => negative
  end.

(** [numpy.max(a)]; [None] is the [ValueError] on an empty array. *)
Definition np_max (a : list R) : option R :=
  match a with
  | [] => None
  | x :: rest => Some (fold_left Rmax rest x)
  end.

(** [numpy.min(a)]. *)
Definition np_min (a : list R) : option R :=
  match a with
  | [] => None
  | x :: rest => Some (fold_left Rmin rest x)
  end.

(** [numpy.mean(a)]. *)
Definition np_mean (a : list R) : R := rsum a / INR (length a).

(** [numpy.std(a)]: the square root of the mean squared deviation. *)
Definition np_std (a : list R) : R :=
  sqrt (np_mean (map (fun x => (x - np_mean a) * (x - np_mean a)) a)).

(** [(numpy.max(xc) - numpy.min(xc)) / numpy.std(xc)]. *)
Definition score (xc : list R) : option xfloat :=
  match np_max xc with
  | None => None
  | Some hi =>
      match np_min xc with
      | None => None
      | Some lo => Some (xdiv (hi - lo) (np_std xc))
      end
  end.

(** [PCM_MAX = 2.0 ** (16 - 1) - 1.0]. *)
Definition PCM_MAX : R := 2 ^ (16 - 1) - 1.

(** [numpy.float32(pcm) / (PCM_MAX + 1.0)]. *)
Definition normalize (pcm : list Z) : list R :=
  map (fun p => IZR p / (PCM_MAX + 1)) pcm.

(** The two [if]s of [dem] on the queue [bits]. *)
Definition decide_bits (k0 k1 : xfloat) (bits : list nat) : list nat :=
  let bits := if xgt k0 (xdouble k1) then bits ++ [0%nat] else bits in
  let bits := if xgt k1 (xdouble k0) then bits ++ [1%nat] else bits in
  bits.

(** [def dem(zero, one, bits, frames)], with [frames] already read as its
    16-bit samples.  The value is the queue after the call, or [None] when
    the call raises. *)
Definition dem (zero one : list R) (bits : list nat) (pcm : list Z)
  : option (list nat) :=
  let data := normalize pcm in
  match modxcor data zero with
  | None => None
  | Some xc0 =>
      match modxcor data one with
      | None => None
      | Some xc1 =>
          match score xc0 with
          | None => None
          | Some k0 =>
              match score xc1 with
              | None => None
              | Some k1 => Some (decide_bits k0 k1 bits)
              end
          end
      end
  end.

End Signal.

(** ** The transmit side *)

(** [def readbytes(f, tty=None)].  [chars] holds the code points [ord(char)]
    of the characters that [f.read(1)] returns before it returns the empty
    string; [tty] is the truth value of the argument of that name. *)
Fixpoint readbytes (chars : list nat) (tty : bool) : list nat :=
  match chars with
  | [] => []
  | byte :: rest =>
      if tty && (byte =? 4) then [] else byte :: readbytes rest tty
  end.

(** The conversion of a float to an integer type rounds toward zero. *)
Definition truncate (x : R) : Z :=
  if Rle_dec 0 x then Int_part x else (- Int_part (- x))%Z.

(** [PCM_DTYPE(x)] on one sample, [PCM_DTYPE = numpy.int16].  [None] marks
    a value whose integer part does not fit 16 bits: the conversion is then
    undefined and what numpy stores depends on the platform. *)
Definition pcm_dtype (x : R) : option Z :=
  let p := truncate x in
  if ((-32768 <=? p) && (p <=? 32767))%Z then Some p else None.

(** A whole array converted, when every sample can be. *)
Fixpoint pcm_array (a : list R) : option (list Z) :=
  match a with
  | [] => Some []
  | x :: rest =>
      match pcm_dtype x, pcm_array rest with
      | Some p, Some ps => Some (p :: ps)
      | _, _ => None
      end
  end.

(** [def mod(zero, one, bit)], named [modulate] here as [mod] is taken by
    the remainder.  The frames are kept as the list of their 16-bit
    samples, which is what [dem] reads them back as. *)
Definition modulate (zero one : list R) (bit : nat) : option (list Z) :=
  let data := if bit =? 1 then one else zero in
  pcm_array (map (fun d => (d * PCM_MAX)%R) data).

(** The transmit loop of [__main__]: one block written per bit of
    [tobits(readbytes(sys.stdin, tty=tty))], in order. *)
Definition tx (zero one : list R) (chars : list nat) (tty : bool)
  : list (option (list Z)) :=
  map (modulate zero one) (tobits (readbytes chars tty)).

(** ** Terminal mode *)

(** The attributes [termios.tcgetattr] returns:
    [[iflag, oflag, cflag, lflag, ispeed, ospeed, cc]]. *)
Record termios_attr : Type := {
  iflag : Z;
  oflag : Z;
  cflag : Z;
  lflag : Z;
  ispeed : Z;
  ospeed : Z;
  cc : list Z
}.

Section Termios.

(** [termios.ICANON], a constant of the platform. *)
Variable ICANON : Z.

(** [def setnoncanonical(fd)] on the attributes of the terminal behind
    [fd]: the value is the attributes set, or [None] for the
    [AssertionError] when [fd] is no terminal. *)
Definition setnoncanonical (isatty : bool) (attr : termios_attr)
  : option termios_attr :=
  if isatty then
    let lflags := Z.land (lflag attr) (Z.lnot ICANON) in
    Some {| iflag := iflag attr; oflag := oflag attr; cflag := cflag attr;
            lflag := lflags; ispeed := ispeed attr; ospeed := ospeed attr;
            cc := cc attr |}
  else None.

End Termios.

(** ** Devices for the proofs about the codec *)

(** A well-formed codeword: bits, a digit portion without adjacent ones
    that is empty or ends in a one, and the terminator. *)
Definition well_formed (l : list nat) : Prop :=
  exists d,
    l = d ++ [1] /\ Forall (fun b => b = 0 \/ b = 1) d /\
    (forall i, ~ (nth i d 0 = 1 /\ nth (S i) d 0 = 1)) /\
    (d = [] \/ last d 0 = 1).

(** The bits that the polls of the queue delivered. *)
Definition delivered (evs : list (option nat)) : list nat :=
  flat_map (fun ev => match ev with Some b => [b] | None => [] end) evs.


(** The digits the [for] loop of [encode] appends when it runs over the
    indices [k + 1] down to [2] from the remainder [r]: highest index
    first. *)
Fixpoint digits (k r : nat) : list nat :=
  match k with
  | 0 => []
  | S k' =>
      if F (S (S k')) <=? r then 1 :: digits k' (r - F (S (S k')))
      else 0 :: digits k' r
  end.

(** The remainder that loop ends with. *)
Fixpoint remainder (k r : nat) : nat :=
  match k with
  | 0 => r
  | S k' =>
      if F (S (S k')) <=? r then remainder k' (r - F (S (S k')))
      else remainder k' r
  end.

(** The sum [decode] forms over a list whose first element has index [s]. *)
Fixpoint value_from (s : nat) (l : list nat) : nat :=
  match l with
  | [] => 0
  | b :: t => F s * b + value_from (S s) t
  end.

(** No position [i] with a 1 at [i] and at [i + 1]. *)
Definition no_adjacent_ones (l : list nat) : Prop :=
  forall i, ~ (nth i l 0 = 1 /\ nth (S i) l 0 = 1).

(** ** Devices for the proofs about the demodulator *)

(** What the two [if]s of [dem] put on the queue, in order. *)
Definition emitted (k0 k1 : xfloat) : list nat :=
  (if xgt k0 (xdouble k1) then [0] else [])
  ++ (if xgt k1 (xdouble k0) then [1] else []).

(** A score is a NaN, plus infinity or a non-negative real. *)
Definition nonnegative (k : xfloat) : Prop :=
  match k with
  | XNan => True
  | XInf negative => negative = false
  | XFin r => (0 <= r)%R
  end.

(** [k] is (greatest - least) / standard deviation of [xc]. *)
Definition peak_prominence (xc : list R) (k : xfloat) : Prop :=
  exists hi lo,
    In hi xc /\ In lo xc /\ (forall x, In x xc -> (lo <= x <= hi)%R) /\
    k = xdiv (hi - lo) (np_std xc).

(** Whether [modxcor] leaves no correlation value for a block of [m]
    samples and a reference of [n]: the reference has fewer than two
    samples, or the block is empty and [n] is even. *)
Definition no_correlation (m n : nat) : bool :=
  (n <=? 1) || ((m =? 0) && (n mod 2 =? 0)).

(** The energy of a signal: the sum of its squared samples. *)
Definition energy (a : list R) : R := rsum (map (fun v => (v * v)%R) a).

(** The index of the second array that the circular convolution pairs with
    index [i] of the first at output [j], as a function on all numbers. *)
Definition wrap_index (N j i : nat) : nat :=
  if i <? N then (if i <=? j then j - i else j + N - i) else i.

(** The two scores of a waveform [w] received without noise: what the
    block [w] scores against the reversal of [w], and against [w] itself. *)
Definition reference_scores (w : list R) : option (xfloat * xfloat) :=
  match modxcor w (rev w) with
  | None => None
  | Some xc_rev =>
      match modxcor w w with
      | None => None
      | Some xc_self =>
          match score xc_rev with
          | None => None
          | Some k_rev =>
              match score xc_self with
              | None => None
              | Some k_self => Some (k_rev, k_self)
              end
          end
      end
  end.

(** The waveform [w] separates from its reversal: against itself it scores
    more than twice what it scores against its reversal. *)
Definition decodable (w : list R) : bool :=
  match reference_scores w with
  | Some (k_rev, k_self) => xgt k_self (xdouble k_rev)
  | None => false
  end.



(** * Theorems *)

(** ** Fibonacci numbers *)

Lemma F_unfold n : F (S (S n)) = F (S n) + F n.
Proof. reflexivity. Qed.

Lemma F_growth n :
  n <= S (F n) /\ S n <= S (F (S n)) /\ 1 <= F (S n) /\ (n = 0 \/ 1 <= F n).
Proof.
  induction n as [|n IH].
  - simpl. lia.
  - rewrite F_unfold. lia.
Qed.

Lemma F_lower n : n <= S (F n).
Proof. apply F_growth. Qed.

Lemma F_mono_S n : F n <= F (S n).
Proof. destruct n as [|n]; [simpl; lia | rewrite F_unfold; lia]. Qed.

(** ** The [while] loop of [encode] *)

Lemma while_F_step x n :
  while_F x n = if F n <=? x then while_F x (S n) else n.
Proof.
  rewrite (while_F_equation_1 x n).
  destruct (le_lt_dec (F n) x) as [H|H]; simpl.
  - apply Nat.leb_le in H as ->. reflexivity.
  - apply Nat.leb_gt in H as ->. reflexivity.
Qed.

(** What the loop leaves behind: the first index from [n] on whose
    Fibonacci number exceeds [x]. *)
Lemma while_F_spec x n :
  n <= while_F x n /\ x < F (while_F x n) /\
  forall j, n <= j < while_F x n -> F j <= x.
Proof.
  funelim (while_F x n).
  - destruct H as (H1 & H2 & H3).
    repeat split; try lia.
    intros j Hj. destruct (Nat.eq_dec j n) as [->|Hne]; [assumption|].
    apply H3. lia.
  - repeat split; try lia.
Qed.

(** ** The [for] loop of [encode] *)

Lemma encode_loop k : forall r b,
  fold_left encode_body (rev (seq 2 k)) (r, b)
  = (remainder k r, b ++ digits k r).
Proof.
  induction k as [|k IH]; intros r b.
  - simpl. now rewrite app_nil_r.
  - rewrite seq_S, rev_app_distr.
    cbn [rev app Nat.add fold_left encode_body digits remainder].
    destruct (F (S (S k)) <=? r); rewrite IH, <- app_assoc; reflexivity.
Qed.

Lemma range_down_seq n : range_down (n - 1) 1 = rev (seq 2 (n - 2)).
Proof. unfold range_down. do 2 f_equal. lia. Qed.

Lemma encode_digits x : encode x = rev (digits (while_F x 1 - 2) x) ++ [1].
Proof.
  unfold encode. rewrite range_down_seq, encode_loop. reflexivity.
Qed.

Lemma digits_length k : forall r, length (digits k r) = k.
Proof.
  induction k as [|k IH]; intros r; cbn [digits]; [reflexivity|].
  destruct (F (S (S k)) <=? r); cbn [length]; now rewrite IH.
Qed.

Lemma digits_bits k : forall r, Forall (fun b => b = 0 \/ b = 1) (digits k r).
Proof.
  induction k as [|k IH]; intros r; cbn [digits]; [constructor|].
  destruct (F (S (S k)) <=? r); constructor; auto.
Qed.

(** ** [decode] as a weighted sum *)

Lemma decode_fold l : forall s w,
  fold_left (fun w (ib : nat * nat) => w + F (fst ib + 2) * snd ib)
            (combine (seq s (length l)) l) w
  = w + value_from (s + 2) l.
Proof.
  induction l as [|b l IH]; intros s w;
    cbn [length seq combine fold_left value_from fst snd]; [lia|].
  rewrite IH. cbn [Nat.add]. lia.
Qed.

Lemma decode_value x : decode x = value_from 2 (removelast x).
Proof. unfold decode, enumerate. now rewrite decode_fold. Qed.

Lemma value_from_app l : forall s b,
  value_from s (l ++ [b]) = value_from s l + F (s + length l) * b.
Proof.
  induction l as [|a l IH]; intros s b; cbn [app value_from length].
  - replace (s + 0) with s by lia. lia.
  - rewrite IH. replace (S s + length l) with (s + S (length l)) by lia. lia.
Qed.

(** Greedy subtraction from a remainder below [F (k + 2)] uses it up: the
    digits weigh exactly [r]. *)
Lemma digits_value k : forall r,
  r < F (S (S k)) -> value_from 2 (rev (digits k r)) = r.
Proof.
  induction k as [|k IH]; intros r Hr.
  - simpl in *. lia.
  - rewrite F_unfold in Hr. cbn [digits].
    pose proof (F_mono_S (S k)) as Hm.
    destruct (Nat.leb_spec (F (S (S k))) r) as [Hle|Hgt]; cbn [rev];
      rewrite value_from_app, length_rev, digits_length.
    + rewrite IH by lia. cbn [Nat.add]. lia.
    + rewrite IH by lia. lia.
Qed.

(** Zeckendorf's property of the greedy digits: no two adjacent ones, and a
    remainder below [F (k + 1)] leaves the leading digit at zero. *)
Lemma digits_no_adjacent k : forall r,
  r < F (S (S k)) ->
  no_adjacent_ones (digits k r) /\ (r < F (S k) -> nth 0 (digits k r) 0 = 0).
Proof.
  induction k as [|k IH]; intros r Hr.
  - split; [|reflexivity]. intros i [H _]. destruct i; discriminate.
  - rewrite F_unfold in Hr. cbn [digits].
    pose proof (F_mono_S (S k)) as Hm.
    destruct (Nat.leb_spec (F (S (S k))) r) as [Hle|Hgt].
    + destruct (IH (r - F (S (S k)))) as [Hno Hhd]; [lia|].
      split; [|lia].
      intros [|i] [H1 H2].
      * cbn [nth] in H2. rewrite Hhd in H2 by lia. discriminate.
      * apply (Hno i). split; assumption.
    + destruct (IH r Hgt) as [Hno Hhd].
      split; [|reflexivity].
      intros [|i] [H1 H2]; [discriminate|].
      apply (Hno i). split; assumption.
Qed.

Lemma while_F_bound x : x < F (S (S (while_F x 1 - 2))).
Proof.
  destruct (while_F_spec x 1) as (H1 & H2 & _).
  destruct (while_F x 1) as [|[|n]]; [lia | exact H2 |].
  replace (S (S (S (S n) - 2))) with (S (S n)) by lia. exact H2.
Qed.

(** The round trip, for every natural number. *)
Lemma decode_encode x : decode (encode x) = x.
Proof.
  rewrite decode_value, encode_digits, removelast_last.
  apply digits_value, while_F_bound.
Qed.

(** C1: for every byte value [v] in [0, 255], decoding the codeword of [v]
    gives [v] back: [decode (encode v) = v]. *)
Theorem decode_encode_byte (v : nat) : v <= 255 -> decode (encode v) = v.
Proof. intros _. apply decode_encode. Qed.

Lemma decode_encode_byte_witness : 65 <= 255 /\ decode (encode 65) = 65.
Proof. split; [lia | apply (decode_encode_byte 65); lia]. Defined.

(** ** Adjacent ones *)

Lemma no_adjacent_ones_rev l : no_adjacent_ones l -> no_adjacent_ones (rev l).
Proof.
  intros Hl i [H1 H2].
  destruct (Nat.lt_ge_cases (S i) (length l)) as [Hlt|Hge].
  - rewrite rev_nth in H1, H2 by lia.
    apply (Hl (length l - S (S i))). split; [assumption|].
    replace (S (length l - S (S i))) with (length l - S i) by lia.
    assumption.
  - rewrite nth_overflow in H2; [discriminate|]. now rewrite length_rev.
Qed.

(** In a codeword whose digit portion has no adjacent ones, two adjacent
    ones can only be the last digit and the terminator. *)
Lemma adjacent_ones_only_at_end d i :
  no_adjacent_ones d ->
  nth i (d ++ [1]) 0 = 1 -> nth (S i) (d ++ [1]) 0 = 1 ->
  S (S i) = length (d ++ [1]).
Proof.
  intros Hd H1 H2. rewrite length_app. cbn [length].
  destruct (Nat.lt_trichotomy (S i) (length d)) as [Hlt|[Heq|Hgt]].
  - exfalso. apply (Hd i).
    rewrite app_nth1 in H1, H2 by lia. split; assumption.
  - lia.
  - rewrite nth_overflow in H2; [discriminate|].
    rewrite length_app. cbn [length]. lia.
Qed.

Lemma encode_no_adjacent x : no_adjacent_ones (rev (digits (while_F x 1 - 2) x)).
Proof.
  apply no_adjacent_ones_rev, digits_no_adjacent, while_F_bound.
Qed.

Lemma encode_adjacent_ones x i :
  nth i (encode x) 0 = 1 -> nth (S i) (encode x) 0 = 1 ->
  S (S i) = length (encode x).
Proof.
  rewrite encode_digits. apply adjacent_ones_only_at_end, encode_no_adjacent.
Qed.

(** C2: for every byte value [v] in [0, 255], the digit portion of
    [encode v] (all bits but the last) has no two adjacent 1 bits, and two
    adjacent 1 bits of [encode v] can only be its final two positions. *)
Theorem encode_adjacent_ones_only_final (v : nat) :
  v <= 255 ->
  no_adjacent_ones (removelast (encode v)) /\
  forall i, nth i (encode v) 0 = 1 -> nth (S i) (encode v) 0 = 1 ->
            S (S i) = length (encode v).
Proof.
  intros _. rewrite encode_digits, removelast_last.
  split; [apply encode_no_adjacent|].
  intros i. apply adjacent_ones_only_at_end, encode_no_adjacent.
Qed.

Lemma encode_adjacent_ones_only_final_witness :
  65 <= 255 /\
  no_adjacent_ones (removelast (encode 65)) /\
  forall i, nth i (encode 65) 0 = 1 -> nth (S i) (encode 65) 0 = 1 ->
            S (S i) = length (encode 65).
Proof. split; [lia | apply (encode_adjacent_ones_only_final 65); lia]. Defined.

(** C8: the codewords of 0, 1 and 2, and the value of [[0; 1; 1]]. *)
Theorem encode_decode_examples :
  encode 0 = [1] /\ encode 1 = [1; 1] /\ encode 2 = [0; 1; 1] /\
  decode [0; 1; 1] = 2.
Proof. repeat split; reflexivity. Qed.

(** ** The assembler *)

Lemma codeword_end_app p : codeword_end (p ++ [1; 1]) = true.
Proof.
  unfold codeword_end, last_two.
  rewrite length_app. cbn [length].
  replace (length p + 2 - 2) with (length p) by lia.
  rewrite skipn_app, skipn_all, Nat.sub_diag. cbn [skipn app].
  destruct (list_eq_dec Nat.eq_dec [1; 1] [1; 1]); congruence.
Qed.

Lemma codeword_end_inv l :
  codeword_end l = true -> exists p, l = p ++ [1; 1].
Proof.
  unfold codeword_end, last_two. intros H.
  destruct (list_eq_dec Nat.eq_dec (skipn (length l - 2) l) [1; 1]) as [E|E];
    [|discriminate].
  exists (firstn (length l - 2) l).
  rewrite <- E. symmetry. apply firstn_skipn.
Qed.

Lemma unichr_in_range i :
  (N.of_nat i <= UNICHR_MAX)%N -> unichr i = Some i.
Proof.
  intros H. unfold unichr. now apply N.leb_le in H as ->.
Qed.

Lemma unichr_out_of_range i :
  (UNICHR_MAX < N.of_nat i)%N -> unichr i = None.
Proof.
  intros H. unfold unichr. now apply N.leb_gt in H as ->.
Qed.

Lemma unichr_byte v : v <= 255 -> unichr v = Some v.
Proof. intros H. apply unichr_in_range. unfold UNICHR_MAX. lia. Qed.

(** A stream on which the end-of-codeword check first holds at its very end
    is taken as one codeword: its value goes to [unichr]; the character
    comes out and the accumulator is cleared, or the loop is left with the
    codeword still accumulated. *)
Lemma rx_loop_one_codeword l : forall acc out,
  l <> [] ->
  (forall k, 1 <= k < length l -> codeword_end (acc ++ firstn k l) = false) ->
  codeword_end (acc ++ l) = true ->
  rx_loop (map Some l) (acc, out)
  = match unichr (tobyte (acc ++ l)) with
    | Some c => Running ([], out ++ [c])
    | None => Raised (acc ++ l, out)
    end.
Proof.
  induction l as [|b l IH]; intros acc out Hne Hpre Hend; [congruence|].
  cbn [map rx_loop rx_step fst snd].
  destruct l as [|c l].
  - rewrite Hend. cbn [map rx_loop]. now destruct (unichr _).
  - assert (H1 : codeword_end (acc ++ [b]) = false)
      by (apply (Hpre 1); cbn [length]; lia).
    rewrite H1.
    change (b :: c :: l) with ([b] ++ c :: l) in Hend |- *.
    rewrite app_assoc in Hend |- *.
    apply IH; [discriminate| |assumption].
    intros k Hk. rewrite <- app_assoc.
    apply (Hpre (S k)). cbn [length] in *. lia.
Qed.

(** C6: the stream [[0; 1; 1; 0; 1; 1]], delivered without gaps, makes the
    assembler emit exactly the two bytes [[2; 2]], each decoded from the
    accumulator [[0; 1; 1]]; a step appends the bit, tests the last two
    accumulated bits and on a match emits the decoded accumulator and clears
    it. *)
Theorem assemble_two_codewords :
  assemble [0; 1; 1; 0; 1; 1] = Running ([], [2; 2]) /\
  assemble [0; 1] = Running ([0; 1], []) /\
  assemble [0; 1; 1] = Running ([], [decode [0; 1; 1]]) /\
  assemble [0; 1; 1; 0; 1] = Running ([0; 1], [2]) /\
  forall acc out bit,
    rx_step (acc, out) (Some bit)
    = if codeword_end (acc ++ [bit]) then
        match unichr (decode (acc ++ [bit])) with
        | Some c => Running ([], out ++ [c])
        | None => Raised (acc ++ [bit], out)
        end
      else Running (acc ++ [bit], out).
Proof. repeat split; reflexivity. Qed.

(** ** Codeword boundaries *)

(** A positive value has a leading Zeckendorf digit, which meets the
    terminator. *)
Lemma encode_positive_ends x :
  1 <= x -> exists d, encode x = d ++ [1; 1].
Proof.
  intros Hx. rewrite encode_digits.
  destruct (while_F_spec x 1) as (H1 & H2 & H3).
  destruct (while_F x 1) as [|[|[|k]]] eqn:En; [lia | simpl in H2; lia | simpl in H2; lia |].
  replace (S (S (S k)) - 2) with (S k) by lia.
  cbn [digits].
  assert (Hk : F (S (S k)) <= x) by (apply H3; lia).
  apply Nat.leb_le in Hk. rewrite Hk.
  exists (rev (digits k (x - F (S (S k))))).
  cbn [rev]. now rewrite <- app_assoc.
Qed.

(** No proper prefix of a codeword passes the end-of-codeword check. *)
Lemma encode_prefix_not_end x k :
  k < length (encode x) -> codeword_end (firstn k (encode x)) = false.
Proof.
  intros Hk. destruct (codeword_end (firstn k (encode x))) eqn:E; [|reflexivity].
  exfalso. apply codeword_end_inv in E as [p Hp].
  assert (Hlen : k = length p + 2).
  { apply (f_equal (@length nat)) in Hp.
    rewrite length_firstn, length_app in Hp. cbn [length] in Hp. lia. }
  assert (Hn : forall j, j < 2 -> nth (length p + j) (encode x) 0 = 1).
  { intros j Hj.
    assert (Hf : nth (length p + j) (firstn k (encode x)) 0 = 1).
    { rewrite Hp, app_nth2 by lia.
      replace (length p + j - length p) with j by lia.
      destruct j as [|[|j]]; [reflexivity | reflexivity | lia]. }
    rewrite nth_firstn in Hf.
    destruct (Nat.ltb_spec (length p + j) k); [assumption | lia]. }
  pose proof (Hn 0 ltac:(lia)) as H0. pose proof (Hn 1 ltac:(lia)) as H1.
  rewrite Nat.add_0_r in H0. rewrite Nat.add_1_r in H1.
  pose proof (encode_adjacent_ones x _ H0 H1). lia.
Qed.

(** C10: for every byte value [v] in [1, 255], [encode v] ends in two 1
    bits and no proper prefix of it does, so the assembler's check fires
    exactly at the codeword boundary and the byte [v] comes out; for
    [v = 0], [encode 0 = [1]] and the check does not fire within it. *)
Theorem codeword_end_exactly_at_boundary (v : nat) :
  v <= 255 ->
  (forall k, k < length (encode v) ->
             codeword_end (firstn k (encode v)) = false) /\
  (1 <= v ->
   codeword_end (encode v) = true /\
   assemble (encode v) = Running ([], [v])) /\
  (v = 0 ->
   encode v = [1] /\ codeword_end (encode v) = false /\
   assemble (encode v) = Running ([1], [])).
Proof.
  intros Hb. split; [intros k; apply encode_prefix_not_end|]. split.
  - intros Hv. destruct (encode_positive_ends v Hv) as [d Hd].
    assert (He : codeword_end (encode v) = true)
      by (rewrite Hd; apply codeword_end_app).
    split; [assumption|].
    unfold assemble.
    rewrite (rx_loop_one_codeword (encode v) [] []).
    + cbn [app]. unfold tobyte. rewrite decode_encode.
      now rewrite unichr_byte.
    + rewrite Hd. destruct d; discriminate.
    + intros k Hk. cbn [app]. apply encode_prefix_not_end. lia.
    + assumption.
  - intros ->. repeat split; reflexivity.
Qed.

Lemma codeword_end_exactly_at_boundary_witness :
  65 <= 255 /\ 1 <= 65 /\
  codeword_end (encode 65) = true /\
  assemble (encode 65) = Running ([], [65]).
Proof.
  split; [lia|]. split; [lia|].
  apply (codeword_end_exactly_at_boundary 65); lia.
Defined.

(** ** Iterative and memoized Fibonacci numbers *)

Lemma fib_loop_F n : forall k, fib_loop n (F k) (F (S k)) = F (n + k).
Proof.
  induction n as [|n IH]; intros k; cbn [fib_loop]; [reflexivity|].
  replace (F k + F (S k)) with (F (S (S k))) by (rewrite F_unfold; lia).
  rewrite IH. f_equal. lia.
Qed.

Lemma F_iter_F n : F_iter n = F n.
Proof.
  unfold F_iter. change 0 with (F 0) at 1. change 1 with (F 1).
  rewrite fib_loop_F. f_equal. lia.
Qed.

Lemma fib_fill_nth len : forall k i,
  i < len -> nth i (fib_fill len (F k) (F (S k))) 0 = F (k + i).
Proof.
  induction len as [|len IH]; intros k i Hi; [lia|].
  cbn [fib_fill].
  destruct i as [|i]; cbn [nth]; [f_equal; lia|].
  replace (F k + F (S k)) with (F (S (S k))) by (rewrite F_unfold; lia).
  rewrite IH by lia. f_equal. lia.
Qed.

Lemma fib_table_nth len i : i < len -> nth i (fib_table len) 0 = F i.
Proof.
  intros Hi. unfold fib_table.
  change 0 with (F 0) at 1. change 1 with (F 1).
  now rewrite fib_fill_nth.
Qed.

Lemma F_memo_F n : F_memo n = F n.
Proof. unfold F_memo. apply fib_table_nth. lia. Qed.

Lemma F_byte_F n : n <= 14 -> F_byte n = F n.
Proof. intros Hn. unfold F_byte, BYTE_TABLE. apply fib_table_nth. lia. Qed.

(** ** The codec over a Fibonacci function that agrees with [F] *)

Section Agreement.

Variable fib : nat -> nat.
Variable B : nat.
Hypothesis agree : forall n, n <= B -> fib n = F n.

Lemma while_over_F fuel : forall x n,
  while_F x n <= B -> x + 3 <= n + fuel -> 1 <= fuel ->
  while_over fib fuel x n = Some (while_F x n).
Proof.
  induction fuel as [|fuel IH]; intros x n HB Hf H1; [lia|].
  cbn [while_over].
  destruct (while_F_spec x n) as (Hn & _).
  rewrite agree by lia.
  rewrite (while_F_step x n) in HB |- *.
  destruct (Nat.leb_spec (F n) x) as [Hle|Hgt]; [|reflexivity].
  pose proof (F_lower n).
  apply IH; [assumption | lia | lia].
Qed.

Lemma encode_body_over_F l : forall st,
  Forall (fun i => i <= B) l ->
  fold_left (encode_body_over fib) l st = fold_left encode_body l st.
Proof.
  induction l as [|i l IH]; intros [r b] Hl; [reflexivity|].
  inversion Hl as [|? ? Hi Hl']; subst.
  cbn [fold_left]. unfold encode_body_over at 2, encode_body at 2.
  rewrite agree by assumption. now apply IH.
Qed.

Lemma range_down_bound n : Forall (fun i => i <= n - 1) (range_down (n - 1) 1).
Proof.
  apply Forall_forall. intros i Hi. unfold range_down in Hi.
  apply in_rev, in_seq in Hi. lia.
Qed.

Lemma encode_over_F x fuel :
  while_F x 1 <= B -> x + 2 <= fuel ->
  encode_over fib fuel x = Some (encode x).
Proof.
  intros HB Hf. unfold encode_over, encode.
  rewrite while_over_F by (assumption || lia).
  rewrite encode_body_over_F;
    [now destruct (fold_left encode_body _ _)|].
  eapply Forall_impl; [|apply range_down_bound].
  cbn beta. intros i Hi. lia.
Qed.

Lemma decode_fold_over_F l : forall s w,
  s + length l + 1 <= B ->
  fold_left (fun w (ib : nat * nat) => w + fib (fst ib + 2) * snd ib)
            (combine (seq s (length l)) l) w
  = fold_left (fun w (ib : nat * nat) => w + F (fst ib + 2) * snd ib)
              (combine (seq s (length l)) l) w.
Proof.
  induction l as [|b l IH]; intros s w Hl; [reflexivity|].
  cbn [length seq combine fold_left fst snd] in *.
  rewrite agree by lia. apply IH. lia.
Qed.

Lemma decode_over_F l :
  length l <= B -> decode_over fib l = decode l.
Proof.
  intros Hl. unfold decode_over, decode, enumerate.
  destruct l as [|a l]; [reflexivity|].
  apply decode_fold_over_F.
  rewrite removelast_firstn_len, length_firstn.
  cbn [length] in *. lia.
Qed.

End Agreement.

(** C9: for every natural number [n], the double recursion [F] computes the
    value that the iterative loop and the memoized table compute, so the
    three are extensionally equal, and [encode] and [decode] written over
    either replacement return what the source's [encode] and [decode]
    return. *)
Theorem fibonacci_replacements_agree :
  (forall n, F_iter n = F n) /\
  (forall n, F_memo n = F n) /\
  (forall x extra, encode_over F_iter (x + 2 + extra) x = Some (encode x)) /\
  (forall x extra, encode_over F_memo (x + 2 + extra) x = Some (encode x)) /\
  (forall l, decode_over F_iter l = decode l) /\
  (forall l, decode_over F_memo l = decode l).
Proof.
  split; [exact F_iter_F|]. split; [exact F_memo_F|].
  repeat split.
  - intros x extra.
    apply (encode_over_F F_iter (while_F x 1));
      [intros; apply F_iter_F | lia | lia].
  - intros x extra.
    apply (encode_over_F F_memo (while_F x 1));
      [intros; apply F_memo_F | lia | lia].
  - intros l. apply (decode_over_F F_iter (length l));
      [intros; apply F_iter_F | lia].
  - intros l. apply (decode_over_F F_memo (length l));
      [intros; apply F_memo_F | lia].
Qed.

(** The fixed fifteen-entry table is enough for byte values. *)
Lemma while_F_byte x : x <= 255 -> while_F x 1 <= 14.
Proof.
  intros Hx. destruct (while_F_spec x 1) as (H1 & H2 & H3).
  destruct (Nat.le_gt_cases (while_F x 1) 14) as [|Hgt]; [assumption|].
  assert (H : F 14 <= x) by (apply H3; lia).
  vm_compute in H. lia.
Qed.

Lemma byte_table_codec x :
  x <= 255 ->
  encode_over F_byte (x + 2) x = Some (encode x) /\
  decode_over F_byte (encode x) = x.
Proof.
  intros Hx. split.
  - apply (encode_over_F F_byte 14); [exact F_byte_F | now apply while_F_byte | lia].
  - rewrite (decode_over_F F_byte 14); [apply decode_encode | exact F_byte_F |].
    rewrite encode_digits, length_app, length_rev, digits_length.
    pose proof (while_F_byte x Hx). cbn [length]. lia.
Qed.

(** ** The reference waveforms *)

Section WaveformFacts.

Local Open Scope R_scope.

Lemma length_linspace start stop num : length (linspace start stop num) = num.
Proof. unfold linspace. now rewrite length_map, length_seq. Qed.

Lemma nth_map_default {A : Type} (f : A -> R) (l : list A) (a : A) i :
  (i < length l)%nat -> nth i (map f l) 0 = f (nth i l a).
Proof.
  intros Hi. rewrite (nth_indep _ 0 (f a)) by now rewrite length_map.
  apply map_nth.
Qed.

Lemma nth_linspace start stop num i :
  (i < num)%nat ->
  nth i (linspace start stop num) 0 = INR i * ((stop - start) / INR num) + start.
Proof.
  intros Hi. unfold linspace.
  rewrite (nth_map_default _ _ 0%nat) by now rewrite length_seq.
  now rewrite seq_nth.
Qed.

(** The time points lie in [[0, period)]. *)
Lemma linspace_range period num i :
  (i < num)%nat -> 0 < period ->
  0 <= INR i * (period / INR num) < period.
Proof.
  intros Hi Hp.
  assert (Hn : 0 < INR num) by (apply lt_0_INR; lia).
  assert (Hs : 0 < period / INR num) by (apply Rdiv_lt_0_compat; assumption).
  split.
  - apply Rmult_le_pos; [apply pos_INR | lra].
  - replace period with (INR num * (period / INR num)) at 2 by (field; lra).
    apply Rmult_lt_compat_r; [assumption | now apply lt_INR].
Qed.

(** C4: for every band, period and sample count for which the waveforms
    exist (a zero period raises before any is built), the sample sequence
    of "zero" is the sample sequence of "one" in reverse order, sample for
    sample. *)
Theorem zero_is_one_reversed (fmin fmax : Z) (period : R) (samples : nat)
  (amplitude : R) :
  match references fmin fmax period samples amplitude with
  | Some (zero, one) =>
      zero = rev one /\ one = rev zero /\
      length one = samples /\ length zero = samples /\
      forall i, (i < samples)%nat ->
                nth i zero 0 = nth (samples - 1 - i) one 0
  | None => period = 0
  end.
Proof.
  unfold references, chirp.
  destruct (Req_dec_T period 0) as [Hp|Hp]; [assumption|].
  set (one := map (fun s => s * amplitude) _).
  assert (Hlen : length one = samples).
  { unfold one. now rewrite !length_map, length_linspace. }
  repeat split.
  - now rewrite rev_involutive.
  - assumption.
  - now rewrite length_rev.
  - intros i Hi. rewrite rev_nth by lia. rewrite Hlen. f_equal. lia.
Qed.

(** C7: the "one" waveform has [samples] samples, taken at the evenly
    spaced times [t i = i * (period / samples)], which start at 0, lie in
    [[0, period)] and so leave the right endpoint out; the sample at time
    [t] is [sin (2 * PI * (fmin + k * t / 2) * t)] with
    [k = (fmax - fmin) / period]. *)
Theorem chirp_samples (fmin fmax : Z) (period : R) (samples : nat) :
  let k := (IZR fmax - IZR fmin) / period in
  let t := fun i : nat => INR i * (period / INR samples) in
  match chirp (fmin, fmax) period samples with
  | Some one =>
      length one = samples /\
      linspace 0 period samples = map t (seq 0 samples) /\
      (forall i, (i < samples)%nat ->
         nth i one 0 = sin (2 * PI * (IZR fmin + k * t i / 2) * t i)) /\
      (forall i, (S i < samples)%nat -> t (S i) - t i = period / INR samples) /\
      (0 < period -> forall i, (i < samples)%nat -> 0 <= t i < period)
  | None => period = 0
  end.
Proof.
  intros k t. unfold chirp.
  destruct (Req_dec_T period 0) as [Hp|Hp]; [assumption|].
  assert (Hlin : linspace 0 period samples = map t (seq 0 samples)).
  { unfold linspace, t. apply map_ext. intros i.
    rewrite Rminus_0_r, Rplus_0_r. reflexivity. }
  repeat split.
  - now rewrite length_map, length_linspace.
  - assumption.
  - intros i Hi.
    rewrite (nth_map_default _ _ 0) by now rewrite length_linspace.
    rewrite nth_linspace by assumption.
    unfold k, t. rewrite minus_IZR. f_equal.
    rewrite Rminus_0_r, Rplus_0_r. unfold Rdiv. ring.
  - intros i Hi. unfold t. rewrite S_INR. unfold Rdiv. ring.
  - apply linspace_range; assumption.
  - apply linspace_range; assumption.
Qed.

End WaveformFacts.

(** ** The demodulator *)

Section DemodulatorFacts.

Local Open Scope R_scope.

Lemma length_circular_convolution N x y :
  length (circular_convolution N x y) = N.
Proof. unfold circular_convolution. now rewrite length_map, length_seq. Qed.

(** The slice [z[h:-h]] for a positive [h]. *)
Lemma length_slice_symmetric {A : Type} (z : list A) (h : nat) :
  (1 <= h)%nat -> (2 * h <= length z)%nat ->
  length (slice z (Z.of_nat h) (- Z.of_nat h)) = (length z - 2 * h)%nat.
Proof.
  intros Hh Hz. unfold slice, slice_bound.
  destruct (Z.ltb_spec (Z.of_nat h) 0) as [H|_]; [lia|].
  destruct (Z.ltb_spec (- Z.of_nat h) 0) as [_|H]; [|lia].
  rewrite length_firstn, length_skipn. lia.
Qed.

(** The slice [z[0:-0]] is [z[0:0]]. *)
Lemma slice_zero_empty {A : Type} (z : list A) :
  slice z (Z.of_nat 0) (- Z.of_nat 0) = [].
Proof. reflexivity. Qed.

Lemma modxcor_nonempty x y :
  (1 <= length x)%nat -> (2 <= length y)%nat ->
  exists xc, modxcor x y = Some xc /\ xc <> [].
Proof.
  intros Hx Hy. unfold modxcor.
  destruct (Nat.eqb_spec (length x + length y) 0) as [H|_]; [lia|].
  eexists. split; [reflexivity|].
  intros E. apply (f_equal (@length R)) in E.
  pose proof (Nat.Div0.mul_div_le (length y) 2) as Hd.
  assert (Hh : (1 <= length y / 2)%nat)
    by (apply Nat.div_le_lower_bound; lia).
  rewrite length_slice_symmetric, length_circular_convolution in E;
    rewrite ?length_circular_convolution; cbn [length] in *; lia.
Qed.

(** A reference of fewer than two samples leaves an empty correlation
    sequence. *)
Lemma modxcor_short x y :
  (1 <= length x)%nat -> (length y <= 1)%nat -> modxcor x y = Some [].
Proof.
  intros Hx Hy. unfold modxcor.
  destruct (Nat.eqb_spec (length x + length y) 0) as [H|_]; [lia|].
  replace (length y / 2)%nat with 0%nat; [reflexivity|].
  destruct (length y) as [|[|n]]; [reflexivity | reflexivity | lia].
Qed.

Lemma fold_Rmax_ge l : forall x, x <= fold_left Rmax l x.
Proof.
  induction l as [|a l IH]; intros x; cbn [fold_left]; [lra|].
  eapply Rle_trans; [apply (Rmax_l x a) | apply IH].
Qed.

Lemma fold_Rmin_le l : forall x, fold_left Rmin l x <= x.
Proof.
  induction l as [|a l IH]; intros x; cbn [fold_left]; [lra|].
  eapply Rle_trans; [apply IH | apply Rmin_l].
Qed.

Lemma xdiv_nonnegative a b : 0 <= a -> 0 <= b -> nonnegative (xdiv a b).
Proof.
  intros Ha Hb. unfold xdiv.
  destruct (Req_dec_T b 0) as [Hb0|Hb0].
  - destruct (Req_dec_T a 0); [exact I|].
    cbn [nonnegative]. destruct (Rlt_dec a 0); [lra | reflexivity].
  - cbn [nonnegative]. apply Rmult_le_pos; [assumption|].
    apply Rlt_le, Rinv_0_lt_compat. lra.
Qed.

(** A non-empty correlation sequence has a score, and it is not negative. *)
Lemma score_nonempty xc :
  xc <> [] -> exists k, score xc = Some k /\ nonnegative k.
Proof.
  destruct xc as [|x rest]; [congruence|]. intros _.
  unfold score. cbn [np_max np_min].
  eexists. split; [reflexivity|].
  apply xdiv_nonnegative; [|apply sqrt_pos].
  pose proof (fold_Rmax_ge rest x). pose proof (fold_Rmin_le rest x). lra.
Qed.

Lemma fold_Rmax_spec l : forall x,
  In (fold_left Rmax l x) (x :: l) /\
  forall y, In y (x :: l) -> y <= fold_left Rmax l x.
Proof.
  induction l as [|a l IH]; intros x; cbn [fold_left].
  - split; [now left|]. intros y [->|[]]. lra.
  - destruct (IH (Rmax x a)) as [Hin Hub]. split.
    + destruct Hin as [Hin|Hin]; [|now right; right].
      rewrite <- Hin. unfold Rmax. destruct (Rle_dec x a); [right|]; now left.
    + intros y [->|[->|Hy]].
      * eapply Rle_trans; [apply (Rmax_l y a) | apply Hub; now left].
      * eapply Rle_trans; [apply (Rmax_r x y) | apply Hub; now left].
      * apply Hub. now right.
Qed.

Lemma fold_Rmin_spec l : forall x,
  In (fold_left Rmin l x) (x :: l) /\
  forall y, In y (x :: l) -> fold_left Rmin l x <= y.
Proof.
  induction l as [|a l IH]; intros x; cbn [fold_left].
  - split; [now left|]. intros y [->|[]]. lra.
  - destruct (IH (Rmin x a)) as [Hin Hlb]. split.
    + destruct Hin as [Hin|Hin]; [|now right; right].
      rewrite <- Hin. unfold Rmin. destruct (Rle_dec x a); [|right]; now left.
    + intros y [->|[->|Hy]].
      * eapply Rle_trans; [apply Hlb; now left | apply Rmin_l].
      * eapply Rle_trans; [apply Hlb; now left | apply Rmin_r].
      * apply Hlb. now right.
Qed.

(** [score] is the peak prominence of the specification. *)
Lemma score_peak_prominence xc k : score xc = Some k -> peak_prominence xc k.
Proof.
  destruct xc as [|x rest]; [discriminate|].
  unfold score. cbn [np_max np_min]. intros E. injection E as <-.
  destruct (fold_Rmax_spec rest x) as [Hi Hub].
  destruct (fold_Rmin_spec rest x) as [Lo Hlb].
  exists (fold_left Rmax rest x), (fold_left Rmin rest x).
  repeat split; auto.
Qed.

Lemma score_empty : score [] = None.
Proof. reflexivity. Qed.

(** Two scores cannot each exceed twice the other. *)
Lemma xgt_exclusive k0 k1 :
  nonnegative k0 -> nonnegative k1 ->
  xgt k0 (xdouble k1) = true -> xgt k1 (xdouble k0) = false.
Proof.
  destruct k0 as [|n0|r0], k1 as [|n1|r1]; cbn [nonnegative xdouble xgt];
    intros H0 H1 H; subst; try reflexivity; try discriminate.
  destruct (Rgt_dec r0 (2 * r1)); [|discriminate].
  destruct (Rgt_dec r1 (2 * r0)); [lra | reflexivity].
Qed.

Lemma emitted_cases k0 k1 :
  nonnegative k0 -> nonnegative k1 ->
  (length (emitted k0 k1) <= 1)%nat /\
  (xgt k0 (xdouble k1) = true -> emitted k0 k1 = [0%nat]) /\
  (xgt k1 (xdouble k0) = true -> emitted k0 k1 = [1%nat]) /\
  (xgt k0 (xdouble k1) = false -> xgt k1 (xdouble k0) = false ->
   emitted k0 k1 = []).
Proof.
  intros H0 H1. unfold emitted.
  pose proof (xgt_exclusive k0 k1 H0 H1) as E01.
  pose proof (xgt_exclusive k1 k0 H1 H0) as E10.
  destruct (xgt k0 (xdouble k1)), (xgt k1 (xdouble k0));
    try (specialize (E01 eq_refl)); try (specialize (E10 eq_refl));
    try discriminate; cbn [app length];
    repeat split; intros; try discriminate; try reflexivity; lia.
Qed.

Lemma length_normalize pcm : length (normalize pcm) = length pcm.
Proof. unfold normalize. apply length_map. Qed.

(** [dem] on a block of at least one sample against references of at
    least two: both scores exist and the queue grows by [emitted]. *)
Lemma dem_decides zero one bits pcm :
  (2 <= length zero)%nat -> (2 <= length one)%nat -> (1 <= length pcm)%nat ->
  exists xc0 xc1 k0 k1,
    modxcor (normalize pcm) zero = Some xc0 /\
    modxcor (normalize pcm) one = Some xc1 /\
    score xc0 = Some k0 /\ score xc1 = Some k1 /\
    nonnegative k0 /\ nonnegative k1 /\
    dem zero one bits pcm = Some (bits ++ emitted k0 k1).
Proof.
  intros Hz Ho Hp.
  destruct (modxcor_nonempty (normalize pcm) zero) as (xc0 & E0 & N0);
    [now rewrite length_normalize | assumption |].
  destruct (modxcor_nonempty (normalize pcm) one) as (xc1 & E1 & N1);
    [now rewrite length_normalize | assumption |].
  destruct (score_nonempty xc0 N0) as (k0 & S0 & P0).
  destruct (score_nonempty xc1 N1) as (k1 & S1 & P1).
  exists xc0, xc1, k0, k1. repeat split; try assumption.
  unfold dem. rewrite E0, E1, S0, S1. f_equal.
  unfold decide_bits, emitted.
  destruct (xgt k0 (xdouble k1)), (xgt k1 (xdouble k0));
    cbn [app]; rewrite <- ?app_assoc, ?app_nil_r; reflexivity.
Qed.

Lemma dem_short zero one bits pcm :
  (1 <= length pcm)%nat -> (length zero <= 1)%nat ->
  dem zero one bits pcm = None.
Proof.
  intros Hp Hz. unfold dem.
  rewrite (modxcor_short (normalize pcm) zero)
    by (rewrite ?length_normalize; assumption).
  destruct (modxcor (normalize pcm) one); reflexivity.
Qed.

(** C3, as stated, fails on a one-sample symbol: the band 1000-2000 Hz with
    a period of 1/44100 s and one sample gives one-sample references, the
    retained correlation region [z[0:-0]] is empty and [dem] raises on the
    captured block instead of abstaining. *)
Lemma dem_raises_on_one_sample_block :
  exists zero one,
    references 1000 2000 (/ 44100) 1 1 = Some (zero, one) /\
    length zero = 1%nat /\ length one = 1%nat /\
    modxcor (normalize [123%Z]) zero = Some [] /\
    dem zero one [] [123%Z] = None.
Proof.
  unfold references, chirp.
  destruct (Req_dec_T (/ 44100) 0) as [H|_].
  - exfalso. assert (0 < / 44100) by (apply Rinv_0_lt_compat; lra). lra.
  - do 2 eexists. split; [reflexivity|].
    split; [reflexivity|]. split; [reflexivity|]. split; [reflexivity|].
    apply dem_short; simpl; lia.
Qed.

(** C3, amended: for every captured block of at least one sample and
    references of at least two samples, [dem] returns; each reference is
    scored as (max - min) / standard deviation of its cross-correlation
    sequence; bit 0 is put when score(zero) > 2 x score(one), bit 1 when
    score(one) > 2 x score(zero), nothing otherwise; at most one bit is put
    for the block. *)
Theorem dem_decision_rule (zero one : list R) (bits : list nat)
  (pcm : list Z) :
  (2 <= length zero)%nat -> (2 <= length one)%nat -> (1 <= length pcm)%nat ->
  exists xc0 xc1 k0 k1,
    modxcor (normalize pcm) zero = Some xc0 /\
    modxcor (normalize pcm) one = Some xc1 /\
    peak_prominence xc0 k0 /\ peak_prominence xc1 k1 /\
    dem zero one bits pcm = Some (bits ++ emitted k0 k1) /\
    (length (emitted k0 k1) <= 1)%nat /\
    (xgt k0 (xdouble k1) = true -> emitted k0 k1 = [0%nat]) /\
    (xgt k1 (xdouble k0) = true -> emitted k0 k1 = [1%nat]) /\
    (xgt k0 (xdouble k1) = false -> xgt k1 (xdouble k0) = false ->
     emitted k0 k1 = []).
Proof.
  intros Hz Ho Hp.
  destruct (dem_decides zero one bits pcm Hz Ho Hp)
    as (xc0 & xc1 & k0 & k1 & E0 & E1 & S0 & S1 & P0 & P1 & D).
  exists xc0, xc1, k0, k1.
  split; [assumption|]. split; [assumption|].
  split; [now apply score_peak_prominence|].
  split; [now apply score_peak_prominence|].
  split; [assumption|].
  now apply emitted_cases.
Qed.

Lemma dem_decision_rule_witness :
  exists xc0 xc1 k0 k1,
    modxcor (normalize [0; 16384]%Z) [/ 2; 0] = Some xc0 /\
    modxcor (normalize [0; 16384]%Z) [0; / 2] = Some xc1 /\
    peak_prominence xc0 k0 /\ peak_prominence xc1 k1 /\
    dem [/ 2; 0] [0; / 2] [] [0; 16384]%Z = Some ([] ++ emitted k0 k1) /\
    (length (emitted k0 k1) <= 1)%nat /\
    (xgt k0 (xdouble k1) = true -> emitted k0 k1 = [0%nat]) /\
    (xgt k1 (xdouble k0) = true -> emitted k0 k1 = [1%nat]) /\
    (xgt k0 (xdouble k1) = false -> xgt k1 (xdouble k0) = false ->
     emitted k0 k1 = []).
Proof.
  apply (dem_decision_rule [/ 2; 0] [0; / 2] [] [0; 16384]%Z);
    cbn [length]; lia.
Defined.

(** *** Two-sample symbols *)

Lemma np_std_pair a b : np_std [a; b] = Rabs (a - b) / 2.
Proof.
  unfold np_std, np_mean, rsum. cbn [map fold_right length INR].
  replace (((a - (a + (b + 0)) / (1 + 1)) * (a - (a + (b + 0)) / (1 + 1))
            + ((b - (a + (b + 0)) / (1 + 1)) * (b - (a + (b + 0)) / (1 + 1))
               + 0)) / (1 + 1))
    with (((a - b) / 2)²) by (unfold Rsqr; field).
  rewrite sqrt_Rsqr_abs. unfold Rdiv. rewrite Rabs_mult.
  f_equal. apply Rabs_pos_eq. lra.
Qed.

(** The score of a two-element sequence is NaN when its elements are equal
    and 2 otherwise. *)
Lemma score_pair a b :
  exists k, score [a; b] = Some k /\ (k = XNan \/ exists r, k = XFin r /\ r = 2).
Proof.
  unfold score. cbn [np_max np_min fold_left]. eexists. split; [reflexivity|].
  rewrite np_std_pair.
  assert (E : Rmax a b - Rmin a b = Rabs (a - b)).
  { unfold Rmax, Rmin, Rabs.
    destruct (Rle_dec a b), (Rcase_abs (a - b)); lra. }
  rewrite E. pose proof (Rabs_pos (a - b)) as Hd.
  unfold xdiv.
  destruct (Req_dec_T (Rabs (a - b) / 2) 0) as [H0|H0].
  - destruct (Req_dec_T (Rabs (a - b)) 0); [now left | lra].
  - right. eexists. split; [reflexivity|]. field. lra.
Qed.

Lemma xgt_pair_scores k0 k1 :
  (k0 = XNan \/ exists r, k0 = XFin r /\ r = 2) ->
  (k1 = XNan \/ exists r, k1 = XFin r /\ r = 2) ->
  emitted k0 k1 = [].
Proof.
  intros [->|(r0 & -> & ->)] [->|(r1 & -> & ->)]; unfold emitted;
    cbn [xdouble xgt app]; try reflexivity.
  destruct (Rgt_dec 2 (2 * 2)); [lra | reflexivity].
Qed.

Lemma modxcor_pair x0 x1 y0 y1 :
  exists a b, modxcor [x0; x1] [y0; y1] = Some [a; b].
Proof.
  unfold modxcor, circular_convolution, resize. simpl.
  do 2 eexists. reflexivity.
Qed.

(** With two samples per symbol no block ever yields a bit. *)
Lemma dem_two_samples z0 z1 o0 o1 bits p0 p1 :
  dem [z0; z1] [o0; o1] bits [p0; p1] = Some bits.
Proof.
  unfold dem, normalize. cbn [map].
  destruct (modxcor_pair (IZR p0 / (PCM_MAX + 1)) (IZR p1 / (PCM_MAX + 1)) z0 z1)
    as (a0 & b0 & ->).
  destruct (modxcor_pair (IZR p0 / (PCM_MAX + 1)) (IZR p1 / (PCM_MAX + 1)) o0 o1)
    as (a1 & b1 & ->).
  destruct (score_pair a0 b0) as (k0 & -> & H0).
  destruct (score_pair a1 b1) as (k1 & -> & H1).
  f_equal. pose proof (xgt_pair_scores k0 k1 H0 H1) as E.
  unfold emitted in E. unfold decide_bits.
  destruct (xgt k0 (xdouble k1)), (xgt k1 (xdouble k0));
    try discriminate E; reflexivity.
Qed.



(** *** A block without noise *)

Lemma decide_bits_emitted k0 k1 bits :
  decide_bits k0 k1 bits = bits ++ emitted k0 k1.
Proof.
  unfold decide_bits, emitted.
  destruct (xgt k0 (xdouble k1)), (xgt k1 (xdouble k0));
    cbn [app]; rewrite <- ?app_assoc, ?app_nil_r; reflexivity.
Qed.

Lemma score_nonnegative xc k : score xc = Some k -> nonnegative k.
Proof.
  intros E. destruct (score_nonempty xc) as (k' & E' & H).
  - intros ->. discriminate.
  - rewrite E in E'. now injection E' as <-.
Qed.





Lemma modxcor_self_short w : (length w <= 1)%nat -> reference_scores w = None.
Proof.
  intros Hw. unfold reference_scores.
  destruct w as [|a [|b w]]; [reflexivity | | cbn [length] in Hw; lia].
  rewrite !(modxcor_short [a]) by (cbn; lia). reflexivity.
Qed.

Lemma reference_scores_inv w k_rev k_self :
  reference_scores w = Some (k_rev, k_self) ->
  exists xc_rev xc_self,
    modxcor w (rev w) = Some xc_rev /\ modxcor w w = Some xc_self /\
    score xc_rev = Some k_rev /\ score xc_self = Some k_self /\
    nonnegative k_rev /\ nonnegative k_self /\ (2 <= length w)%nat.
Proof.
  intros E.
  assert (Hw : (2 <= length w)%nat).
  { destruct (Nat.le_gt_cases (length w) 1) as [H|H]; [|lia].
    rewrite (modxcor_self_short w H) in E. discriminate. }
  unfold reference_scores in E.
  destruct (modxcor w (rev w)) as [xr|]; [|discriminate].
  destruct (modxcor w w) as [xs|]; [|discriminate].
  destruct (score xr) as [kr|] eqn:Sr; [|discriminate].
  destruct (score xs) as [ks|] eqn:Ss; [|discriminate].
  injection E as <- <-.
  exists xr, xs. repeat split; try reflexivity; try assumption.
  - now apply (score_nonnegative xr).
  - now apply (score_nonnegative xs).
Qed.

(** No waveform of two samples separates from its reversal, and no
    waveform that is its own reversal does. *)
Lemma decodable_two_samples a b : decodable [a; b] = false.
Proof.
  unfold decodable.
  destruct (reference_scores [a; b]) as [[kr ks]|] eqn:E; [|reflexivity].
  unfold reference_scores in E. cbn [rev app] in E.
  destruct (modxcor_pair a b b a) as (r0 & r1 & Er).
  destruct (modxcor_pair a b a b) as (s0 & s1 & Es).
  rewrite Er, Es in E.
  destruct (score_pair r0 r1) as (k0 & S0 & H0).
  destruct (score_pair s0 s1) as (k1 & S1 & H1).
  rewrite S0, S1 in E. injection E as <- <-.
  pose proof (xgt_pair_scores k0 k1 H0 H1) as X. unfold emitted in X.
  destruct (xgt k1 (xdouble k0)); [|reflexivity].
  destruct (xgt k0 (xdouble k1)); discriminate X.
Qed.

Lemma decodable_palindrome w : rev w = w -> decodable w = false.
Proof.
  intros Hw. unfold decodable.
  destruct (reference_scores w) as [[kr ks]|] eqn:E; [|reflexivity].
  destruct (reference_scores_inv w kr ks E)
    as (xr & xs & Er & Es & Sr & Ss & Pr & Ps & _).
  rewrite Hw, Es in Er. injection Er as <-.
  rewrite Ss in Sr. injection Sr as <-.
  destruct (xgt ks (xdouble ks)) eqn:G; [|reflexivity].
  now rewrite (xgt_exclusive ks ks Ps Ps G) in G.
Qed.

(** *** A waveform that separates *)











End DemodulatorFacts.

(** * Further properties of the code *)

(** ** The codec *)

Lemma F_mono i j : i <= j -> F i <= F j.
Proof.
  induction 1 as [|j _ IH]; [lia|].
  pose proof (F_mono_S j). lia.
Qed.

Lemma while_F_minimal (x : nat) :
  1 <= while_F x 1 /\ x < F (while_F x 1) /\
  forall m, 1 <= m -> x < F m -> while_F x 1 <= m.
Proof.
  destruct (while_F_spec x 1) as (H1 & H2 & H3).
  repeat split; try assumption.
  intros m Hm Hx.
  destruct (Nat.le_gt_cases (while_F x 1) m) as [|Hlt]; [assumption|].
  specialize (H3 m ltac:(lia)). lia.
Qed.

(** X1: the [while] loop of [encode] stops at the least index [n >= 1]
    whose Fibonacci number exceeds [x]. *)
Theorem while_F_least (x : nat) :
  1 <= while_F x 1 /\ x < F (while_F x 1) /\
  forall m, 1 <= m -> x < F m -> while_F x 1 <= m.
Proof. exact (while_F_minimal x). Qed.

Lemma encode_length x : length (encode x) = S (while_F x 1 - 2).
Proof.
  rewrite encode_digits, length_app, length_rev, digits_length.
  cbn [length]. lia.
Qed.

Lemma Forall_rev_bits (l : list nat) :
  Forall (fun b => b = 0 \/ b = 1) l ->
  Forall (fun b => b = 0 \/ b = 1) (rev l).
Proof.
  intros H. apply Forall_forall. intros b Hb.
  apply in_rev in Hb. revert b Hb. now apply Forall_forall.
Qed.

(** The digit portion of the codeword of a positive value ends in a one;
    that of 0 is empty. *)
Lemma encode_leading_digit x :
  digits (while_F x 1 - 2) x = [] \/
  last (rev (digits (while_F x 1 - 2) x)) 0 = 1.
Proof.
  destruct (while_F_spec x 1) as (H1 & H2 & H3).
  destruct (while_F x 1) as [|[|[|k]]] eqn:En; try (left; reflexivity).
  right. replace (S (S (S k)) - 2) with (S k) by lia.
  cbn [digits].
  assert (Hk : F (S (S k)) <= x) by (apply H3; lia).
  apply Nat.leb_le in Hk. rewrite Hk. cbn [rev]. apply last_last.
Qed.

(** X2: every codeword is well formed: it consists of bits, its digit
    portion has no two adjacent ones and is empty or ends in a one, and the
    terminator 1 follows. *)
Theorem encode_well_formed (x : nat) : well_formed (encode x).
Proof.
  exists (rev (digits (while_F x 1 - 2) x)).
  split; [apply encode_digits|]. split; [apply Forall_rev_bits, digits_bits|].
  split; [apply encode_no_adjacent|].
  destruct (encode_leading_digit x) as [E|E]; [left; now rewrite E | now right].
Qed.

(** X3: the codeword of a byte value has between 1 and 13 bits. *)
Theorem encode_byte_length (x : nat) :
  x <= 255 -> 1 <= length (encode x) <= 13.
Proof.
  intros Hx. rewrite encode_length.
  pose proof (while_F_byte x Hx). lia.
Qed.

Lemma encode_byte_length_witness :
  255 <= 255 /\ 1 <= length (encode 255) <= 13.
Proof. split; [lia | apply (encode_byte_length 255); lia]. Defined.

Lemma encode_positive_end x : 1 <= x -> codeword_end (encode x) = true.
Proof.
  intros Hx. destruct (encode_positive_ends x Hx) as [d ->].
  apply codeword_end_app.
Qed.

(** X4: the codewords of positive values are prefix-free: the codeword of
    a positive value is no proper prefix of any codeword. *)
Theorem encode_prefix_free (a b k : nat) :
  1 <= a -> k < length (encode b) -> firstn k (encode b) <> encode a.
Proof.
  intros Ha Hk E.
  pose proof (encode_prefix_not_end b k Hk) as H.
  rewrite E, (encode_positive_end a Ha) in H. discriminate.
Qed.

Lemma encode_prefix_free_witness :
  1 <= 2 /\ 2 < length (encode 65) /\ firstn 2 (encode 65) <> encode 2.
Proof.
  assert (L : length (encode 65) = 10) by reflexivity.
  split; [lia|]. split; [rewrite L; lia|].
  apply (encode_prefix_free 2 65 2); [lia | rewrite L; lia].
Defined.

(** X5: [decode] never reads the last element of its argument, and weighs
    the element at position [i] of the rest by [F (i + 2)], whatever
    number that element is. *)
Theorem decode_weights :
  decode [] = 0 /\
  (forall t, decode [t] = 0) /\
  (forall d b t t',
     decode (d ++ [b; t]) = decode (d ++ [t']) + F (length d + 2) * b).
Proof.
  split; [reflexivity|]. split; [reflexivity|].
  intros d b t t'. rewrite !decode_value.
  change (d ++ [b; t]) with (d ++ [b] ++ [t]).
  rewrite app_assoc, !removelast_last, value_from_app.
  replace (2 + length d) with (length d + 2) by lia. reflexivity.
Qed.

Lemma no_adjacent_ones_tail b t :
  no_adjacent_ones (b :: t) -> no_adjacent_ones t.
Proof. intros H i Hi. apply (H (S i)). exact Hi. Qed.

(** Zeckendorf uniqueness, on digits listed highest index first: digits
    without adjacent ones weigh less than the next Fibonacci number, and
    the greedy loop finds them again from their weight. *)
Lemma digits_canonical h :
  Forall (fun b => b = 0 \/ b = 1) h -> no_adjacent_ones h ->
  value_from 2 (rev h) < F (S (S (length h))) /\
  (nth 0 h 0 = 0 -> value_from 2 (rev h) < F (S (length h))) /\
  (nth 0 h 0 = 1 -> F (S (length h)) <= value_from 2 (rev h)) /\
  digits (length h) (value_from 2 (rev h)) = h.
Proof.
  induction h as [|b t IH]; intros Hb Hn.
  - cbn. repeat split; intros; try lia; try discriminate.
  - inversion Hb as [|? ? Hb0 Hbt]; subst.
    destruct (IH Hbt (no_adjacent_ones_tail b t Hn)) as (I1 & I2 & _ & I4).
    cbn [rev length]. rewrite value_from_app, length_rev.
    cbn [Nat.add nth digits].
    pose proof (F_mono_S (S (length t))) as M1.
    pose proof (F_unfold (S (length t))) as U.
    destruct Hb0 as [->| ->].
    + rewrite Nat.mul_0_r, Nat.add_0_r.
      repeat split; try lia.
      destruct (Nat.leb_spec (F (S (S (length t)))) (value_from 2 (rev t)));
        [lia | now rewrite I4].
    + rewrite Nat.mul_1_r.
      assert (H0 : nth 0 t 0 = 0).
      { destruct t as [|c t]; [reflexivity|].
        inversion Hbt as [|? ? Hc _]; subst. cbn [nth].
        destruct Hc as [->| ->]; [reflexivity|].
        exfalso. apply (Hn 0). split; reflexivity. }
      specialize (I2 H0).
      repeat split; try lia.
      destruct (Nat.leb_spec (F (S (S (length t))))
                  (value_from 2 (rev t) + F (S (S (length t)))));
        [|lia].
      replace (value_from 2 (rev t) + F (S (S (length t)))
               - F (S (S (length t)))) with (value_from 2 (rev t)) by lia.
      now rewrite I4.
Qed.

(** X6: the round trip from the codewords: a well-formed codeword is the
    codeword of the value [decode] gives it, [encode (decode l) = l]. *)
Theorem encode_decode (l : list nat) :
  well_formed l -> encode (decode l) = l.
Proof.
  intros (d & -> & Hb & Hn & Hl).
  rewrite decode_value, removelast_last.
  destruct d as [|x0 d0]; [reflexivity|].
  destruct (@exists_last _ (x0 :: d0)) as (d' & a & E); [discriminate|].
  rewrite E in *. clear E x0 d0.
  destruct Hl as [Hl|Hl]; [now destruct d'|].
  rewrite last_last in Hl. subst a.
  set (h := rev (d' ++ [1])).
  assert (Eh : d' ++ [1] = rev h) by (unfold h; now rewrite rev_involutive).
  assert (Hh0 : nth 0 h 0 = 1) by (unfold h; now rewrite rev_app_distr).
  assert (Hlen : length h = S (length d'))
    by (unfold h; rewrite length_rev, length_app; cbn [length]; lia).
  destruct (digits_canonical h) as (C1 & _ & C3 & C4).
  { unfold h. now apply Forall_rev_bits. }
  { unfold h. now apply no_adjacent_ones_rev. }
  specialize (C3 Hh0). rewrite Eh.
  set (v := value_from 2 (rev h)) in *.
  assert (En : while_F v 1 = S (S (length h))).
  { destruct (while_F_minimal v) as (W1 & W2 & W3).
    apply Nat.le_antisymm; [apply W3; lia|].
    destruct (Nat.le_gt_cases (S (S (length h))) (while_F v 1)) as [|Hlt];
      [assumption|].
    pose proof (F_mono (while_F v 1) (S (length h)) ltac:(lia)). lia. }
  rewrite encode_digits, En.
  replace (S (S (length h)) - 2) with (length h) by lia.
  now rewrite C4.
Qed.

Lemma encode_decode_witness :
  well_formed [0; 1; 0; 0; 1; 1] /\
  encode (decode [0; 1; 0; 0; 1; 1]) = [0; 1; 0; 0; 1; 1].
Proof.
  assert (W : well_formed [0; 1; 0; 0; 1; 1]).
  { exists [0; 1; 0; 0; 1]. split; [reflexivity|].
    split; [repeat (apply Forall_cons; [auto|]); apply Forall_nil|].
    split; [|right; reflexivity].
    intros i [H1 H2].
    do 5 (destruct i as [|i]; [simpl in *; congruence|]).
    destruct i; discriminate. }
  split; [exact W | apply (encode_decode [0; 1; 0; 0; 1; 1] W)].
Defined.

(** ** The assembler on whole streams *)

Lemma rx_loop_app evs1 : forall evs2 st,
  rx_loop (evs1 ++ evs2) st
  = match rx_loop evs1 st with
    | Running st' => rx_loop evs2 st'
    | Raised st' => Raised st'
    end.
Proof.
  induction evs1 as [|ev evs1 IH]; intros evs2 st; [reflexivity|].
  cbn [app rx_loop]. destruct (rx_step st ev); [apply IH | reflexivity].
Qed.

Lemma rx_loop_encode v out :
  1 <= v ->
  rx_loop (map Some (encode v)) ([], out)
  = match unichr v with
    | Some c => Running ([], out ++ [c])
    | None => Raised (encode v, out)
    end.
Proof.
  intros Hv.
  rewrite (rx_loop_one_codeword (encode v) [] out).
  - cbn [app]. unfold tobyte. now rewrite decode_encode.
  - destruct (encode_positive_ends v Hv) as [d ->]. destruct d; discriminate.
  - intros k Hk. cbn [app]. apply encode_prefix_not_end. lia.
  - cbn [app]. now apply encode_positive_end.
Qed.

Lemma rx_loop_tobits bytes : forall out,
  Forall (fun v => 1 <= v) bytes ->
  Forall (fun v => (N.of_nat v <= UNICHR_MAX)%N) bytes ->
  rx_loop (map Some (tobits bytes)) ([], out) = Running ([], out ++ bytes).
Proof.
  induction bytes as [|v bytes IH]; intros out Hb Hr.
  - cbn. now rewrite app_nil_r.
  - inversion Hb as [|? ? Hv Hb']; subst.
    inversion Hr as [|? ? Hu Hr']; subst.
    unfold tobits in *. cbn [flat_map].
    rewrite map_app, rx_loop_app, rx_loop_encode by assumption.
    rewrite unichr_in_range by assumption.
    rewrite IH by assumption. now rewrite <- app_assoc.
Qed.

Lemma rx_loop_tobits_raise pre v post out :
  Forall (fun v => 1 <= v) pre ->
  Forall (fun v => (N.of_nat v <= UNICHR_MAX)%N) pre ->
  1 <= v -> (UNICHR_MAX < N.of_nat v)%N ->
  rx_loop (map Some (tobits (pre ++ v :: post))) ([], out)
  = Raised (encode v, out ++ pre).
Proof.
  intros Hb Hr Hv Hu. unfold tobits.
  rewrite flat_map_app. cbn [flat_map].
  rewrite map_app, rx_loop_app.
  fold (tobits pre). rewrite rx_loop_tobits by assumption.
  rewrite map_app, rx_loop_app, rx_loop_encode by assumption.
  now rewrite unichr_out_of_range.
Qed.

(** X7: the bit stream [tobits] makes of positive values, delivered
    without loss to the receive loop: when every value is one [unichr]
    accepts, as every byte value is, exactly those values come out, in
    order, and the accumulator is left empty; otherwise the loop raises at
    the first value [unichr] refuses, with the values before it written
    and its codeword still accumulated. *)
Theorem assemble_tobits (bytes : list nat) :
  Forall (fun v => 1 <= v) bytes ->
  (Forall (fun v => (N.of_nat v <= UNICHR_MAX)%N) bytes ->
   assemble (tobits bytes) = Running ([], bytes)) /\
  (forall pre v post,
     bytes = pre ++ v :: post ->
     Forall (fun v => (N.of_nat v <= UNICHR_MAX)%N) pre ->
     (UNICHR_MAX < N.of_nat v)%N ->
     assemble (tobits bytes) = Raised (encode v, pre)).
Proof.
  intros Hb. split.
  - intros Hr. unfold assemble. now rewrite rx_loop_tobits.
  - intros pre v post -> Hr Hu.
    apply Forall_app in Hb as [Hpre Hrest].
    inversion Hrest as [|? ? Hv _]; subst.
    unfold assemble. now rewrite rx_loop_tobits_raise.
Qed.

Lemma assemble_tobits_witness :
  Forall (fun v => 1 <= v) [72; 105; 255] /\
  assemble (tobits [72; 105; 255]) = Running ([], [72; 105; 255]).
Proof.
  assert (H : Forall (fun v => 1 <= v) [72; 105; 255])
    by (repeat constructor; lia).
  split; [exact H|].
  apply (assemble_tobits [72; 105; 255] H).
  repeat constructor; unfold UNICHR_MAX; lia.
Defined.

Lemma tobyte_positive bits : codeword_end bits = true -> 1 <= tobyte bits.
Proof.
  intros H. apply codeword_end_inv in H as [p ->].
  unfold tobyte. rewrite decode_value.
  change (p ++ [1; 1]) with (p ++ [1] ++ [1]).
  rewrite app_assoc, removelast_last, value_from_app.
  pose proof (F_growth (S (length p))) as (_ & _ & H & _).
  cbn [Nat.add]. lia.
Qed.

Lemma rx_step_invariant st ev :
  codeword_end (fst st) = false -> Forall (fun v => 1 <= v) (snd st) ->
  match rx_step st ev with
  | Running st' =>
      codeword_end (fst st') = false /\ Forall (fun v => 1 <= v) (snd st')
  | Raised st' =>
      codeword_end (fst st') = true /\
      (UNICHR_MAX < N.of_nat (tobyte (fst st')))%N /\
      Forall (fun v => 1 <= v) (snd st')
  end.
Proof.
  intros Ha Ho. destruct ev as [bit|]; cbn [rx_step]; [|now split].
  destruct (codeword_end (fst st ++ [bit])) eqn:E; [|now split].
  unfold unichr.
  destruct (N.leb_spec (N.of_nat (tobyte (fst st ++ [bit]))) UNICHR_MAX).
  - cbn [fst snd]. split; [reflexivity|].
    apply Forall_app. split; [assumption|].
    constructor; [now apply tobyte_positive | constructor].
  - cbn [fst snd]. repeat split; assumption.
Qed.

Lemma rx_loop_invariant evs : forall st,
  codeword_end (fst st) = false -> Forall (fun v => 1 <= v) (snd st) ->
  match rx_loop evs st with
  | Running st' =>
      codeword_end (fst st') = false /\ Forall (fun v => 1 <= v) (snd st')
  | Raised st' =>
      codeword_end (fst st') = true /\
      (UNICHR_MAX < N.of_nat (tobyte (fst st')))%N /\
      Forall (fun v => 1 <= v) (snd st')
  end.
Proof.
  induction evs as [|ev evs IH]; intros st Ha Ho; [now split|].
  cbn [rx_loop].
  pose proof (rx_step_invariant st ev Ha Ho) as H.
  destruct (rx_step st ev) as [st'|st']; [|exact H].
  destruct H as [Ha' Ho']. now apply IH.
Qed.

(** X8: whatever is polled from the queue, bits or other numbers, in
    whatever order, the receive loop never writes the value 0, whether it
    is still running or has raised. *)
Theorem rx_loop_never_emits_zero (evs : list (option nat)) :
  ~ In 0 (snd (outcome_state (rx_loop evs ([], [])))).
Proof.
  pose proof (rx_loop_invariant evs ([], []) eq_refl (Forall_nil _)) as H.
  assert (Hp : Forall (fun v => 1 <= v)
                 (snd (outcome_state (rx_loop evs ([], []))))).
  { destruct (rx_loop evs ([], [])); cbn [outcome_state]; tauto. }
  intros Hin. rewrite Forall_forall in Hp. specialize (Hp 0 Hin). lia.
Qed.

(** X9: while the receive loop runs, its accumulator never ends in two
    ones between two turns: a completed codeword is written and cleared in
    the turn that completes it.  The loop is left by an exception only on a
    completed codeword whose value [unichr] refuses; that codeword is then
    still in the accumulator. *)
Theorem rx_loop_accumulator_open (evs : list (option nat)) :
  match rx_loop evs ([], []) with
  | Running (bits, _) => codeword_end bits = false
  | Raised (bits, _) =>
      codeword_end bits = true /\ (UNICHR_MAX < N.of_nat (tobyte bits))%N
  end.
Proof.
  pose proof (rx_loop_invariant evs ([], []) eq_refl (Forall_nil _)) as H.
  destruct (rx_loop evs ([], [])) as [[bits out]|[bits out]];
    cbn [fst snd] in H; tauto.
Qed.

(** X10: polls that find the queue empty change nothing: the receive loop
    ends in the state it reaches on the delivered bits alone. *)
Theorem rx_loop_ignores_empty_polls (evs : list (option nat))
  (st : list nat * list nat) :
  rx_loop evs st = rx_loop (map Some (delivered evs)) st.
Proof.
  revert st. induction evs as [|[bit|] evs IH]; intros st.
  - reflexivity.
  - cbn [delivered flat_map app map rx_loop].
    destruct (rx_step st (Some bit)); [apply IH | reflexivity].
  - cbn [delivered flat_map app rx_loop rx_step]. apply IH.
Qed.

(** ** The transmit side *)

Lemma readbytes_plain chars : readbytes chars false = chars.
Proof.
  induction chars as [|c chars IH]; [reflexivity|].
  cbn [readbytes andb]. now rewrite IH.
Qed.

Lemma readbytes_stop a : forall b,
  ~ In 4 a -> readbytes (a ++ 4 :: b) true = a.
Proof.
  induction a as [|c a IH]; intros b Ha.
  - reflexivity.
  - cbn [app readbytes andb].
    destruct (Nat.eqb_spec c 4) as [->|_]; [exfalso; apply Ha; now left|].
    rewrite IH; [reflexivity|]. intros H. apply Ha. now right.
Qed.

Lemma readbytes_no_eot chars : ~ In 4 (readbytes chars true).
Proof.
  induction chars as [|c chars IH]; [intros []|].
  cbn [readbytes andb].
  destruct (Nat.eqb_spec c 4) as [->|Hc]; [intros []|].
  intros [H|H]; [congruence | now apply IH].
Qed.

(** X11: [readbytes] yields every character of a plain input up to its
    end; on a terminal it yields the characters before the first
    End-of-Transmission (code 4) and neither that one nor anything after
    it, and the whole input when there is none. *)
Theorem readbytes_until_eot :
  (forall chars, readbytes chars false = chars) /\
  (forall a b, ~ In 4 a -> readbytes (a ++ 4 :: b) true = a) /\
  (forall chars, ~ In 4 chars -> readbytes chars true = chars) /\
  (forall chars, ~ In 4 (readbytes chars true)).
Proof.
  split; [exact readbytes_plain|]. split; [exact readbytes_stop|].
  split; [|exact readbytes_no_eot].
  induction chars as [|c chars IH]; intros Hc; [reflexivity|].
  cbn [readbytes andb].
  destruct (Nat.eqb_spec c 4) as [->|_]; [exfalso; apply Hc; now left|].
  rewrite IH; [reflexivity|]. intros H. apply Hc. now right.
Qed.

Lemma readbytes_incl chars tty : forall c,
  In c (readbytes chars tty) -> In c chars.
Proof.
  induction chars as [|x chars IH]; intros c; [intros []|].
  cbn [readbytes].
  destruct (tty && (x =? 4)); [intros []|].
  intros [H|H]; [now left | right; now apply IH].
Qed.

(** X12: transmit and receive back to back at the level of bits, for an
    input without the character of code 0: when every character code is
    one [unichr] accepts, as the code of every character is, the bits the
    transmitter sends, fed to the receive loop, give back the bytes that
    were read; otherwise the loop raises at the first code [unichr]
    refuses, with the bytes before it written. *)
Theorem loopback_bits (chars : list nat) (tty : bool) :
  ~ In 0 chars ->
  (Forall (fun c => (N.of_nat c <= UNICHR_MAX)%N) chars ->
   assemble (tobits (readbytes chars tty))
   = Running ([], readbytes chars tty)) /\
  (forall pre v post,
     readbytes chars tty = pre ++ v :: post ->
     Forall (fun c => (N.of_nat c <= UNICHR_MAX)%N) pre ->
     (UNICHR_MAX < N.of_nat v)%N ->
     assemble (tobits (readbytes chars tty)) = Raised (encode v, pre)).
Proof.
  intros H0.
  assert (Hp : Forall (fun v => 1 <= v) (readbytes chars tty)).
  { apply Forall_forall. intros c Hc. apply readbytes_incl in Hc.
    destruct c; [contradiction | lia]. }
  split.
  - intros Hr. unfold assemble. rewrite rx_loop_tobits; [reflexivity | exact Hp |].
    apply Forall_forall. intros c Hc. apply readbytes_incl in Hc.
    revert c Hc. now apply Forall_forall.
  - intros pre v post E Hr Hu. rewrite E in Hp |- *.
    apply Forall_app in Hp as [Hpre Hrest].
    inversion Hrest as [|? ? Hv _]; subst.
    unfold assemble. now rewrite rx_loop_tobits_raise.
Qed.

Lemma loopback_bits_witness :
  ~ In 0 [104; 105; 4; 33] /\
  assemble (tobits (readbytes [104; 105; 4; 33] true))
  = Running ([], readbytes [104; 105; 4; 33] true).
Proof.
  assert (H : ~ In 0 [104; 105; 4; 33])
    by (intros [H|[H|[H|[H|[]]]]]; discriminate).
  split; [exact H|].
  apply (loopback_bits [104; 105; 4; 33] true H).
  repeat constructor; unfold UNICHR_MAX; lia.
Defined.

(** ** Waveform bounds and modulation *)

Section ModulationFacts.

Local Open Scope R_scope.

Lemma nth_map_any {A B : Type} (f : A -> B) (l : list A) (a : A) (b : B) i :
  (i < length l)%nat -> nth i (map f l) b = f (nth i l a).
Proof.
  intros Hi. rewrite (nth_indep _ b (f a)) by now rewrite length_map.
  apply map_nth.
Qed.

Lemma Rabs_le_bounds a b : Rabs a <= b -> - b <= a <= b.
Proof. unfold Rabs. destruct (Rcase_abs a); lra. Qed.

Lemma PCM_MAX_value : PCM_MAX = 32767.
Proof. unfold PCM_MAX. simpl. lra. Qed.

Lemma chirp_bounded bandwidth period samples one :
  chirp bandwidth period samples = Some one ->
  forall s, In s one -> -1 <= s <= 1.
Proof.
  unfold chirp. destruct bandwidth as [fmin fmax].
  destruct (Req_dec_T period 0); [discriminate|].
  intros E s Hs. injection E as <-.
  apply in_map_iff in Hs as (t & <- & _). apply SIN_bound.
Qed.

(** X13: the reference waveforms stay within the amplitude: every sample
    of "one" and of "zero" has absolute value at most [|amplitude|], and
    the first sample of "one", taken at time 0, is 0. *)
Theorem references_bounded (fmin fmax : Z) (period : R) (samples : nat)
  (amplitude : R) :
  match references fmin fmax period samples amplitude with
  | Some (zero, one) =>
      (forall s, In s one \/ In s zero -> Rabs s <= Rabs amplitude) /\
      ((1 <= samples)%nat -> nth 0 one 0 = 0)
  | None => period = 0
  end.
Proof.
  unfold references.
  destruct (chirp (fmin, fmax) period samples) as [c|] eqn:Ec.
  - split.
    + assert (H : forall s, In s (map (fun s => s * amplitude) c) ->
                            Rabs s <= Rabs amplitude).
      { intros s Hs. apply in_map_iff in Hs as (u & <- & Hu).
        pose proof (chirp_bounded _ _ _ _ Ec u Hu) as Hb.
        rewrite Rabs_mult.
        rewrite <- (Rmult_1_l (Rabs amplitude)) at 2.
        apply Rmult_le_compat_r; [apply Rabs_pos|].
        apply Rabs_le. lra. }
      intros s [Hs|Hs]; [now apply H | apply H; now apply in_rev].
    + intros Hn. unfold chirp in Ec.
      destruct (Req_dec_T period 0); [discriminate|].
      injection Ec as <-.
      destruct samples as [|k]; [lia|].
      unfold linspace. cbn [seq map nth]. change (INR 0) with 0.
      match goal with
      | |- sin ?a * _ = _ => replace a with 0 by (unfold Rdiv; ring)
      end.
      rewrite sin_0. ring.
  - unfold chirp in Ec. destruct (Req_dec_T period 0); [assumption|discriminate].
Qed.

(** Rounding toward zero: between 0 and [x], less than 1 away from [x]. *)
Lemma truncate_spec x :
  Rabs (IZR (truncate x) - x) < 1 /\ Rabs (IZR (truncate x)) <= Rabs x.
Proof.
  unfold truncate. destruct (Rle_dec 0 x) as [Hx|Hx].
  - destruct (base_Int_part x) as [H1 H2].
    assert (H0 : 0 <= IZR (Int_part x)).
    { apply IZR_le. apply Z.lt_succ_r. apply lt_IZR.
      rewrite succ_IZR. lra. }
    rewrite (Rabs_pos_eq (IZR _)), (Rabs_pos_eq x) by assumption.
    split; [apply Rabs_def1; lra | assumption].
  - destruct (base_Int_part (- x)) as [H1 H2].
    assert (H0 : 0 <= IZR (Int_part (- x))).
    { apply IZR_le. apply Z.lt_succ_r. apply lt_IZR.
      rewrite succ_IZR. lra. }
    rewrite opp_IZR.
    split; [apply Rabs_def1; lra|].
    rewrite Rabs_Ropp, (Rabs_pos_eq (IZR _)) by assumption.
    rewrite Rabs_left by lra. assumption.
Qed.

Lemma pcm_dtype_in_range x :
  Rabs x <= 32767 ->
  pcm_dtype x = Some (truncate x) /\ (-32767 <= truncate x <= 32767)%Z.
Proof.
  intros Hx. destruct (truncate_spec x) as [_ Ht].
  assert (Hr : Rabs (IZR (truncate x)) <= 32767) by lra.
  apply Rabs_le_bounds in Hr as [Hlo Hhi].
  assert (Hz : (-32767 <= truncate x <= 32767)%Z)
    by (split; apply le_IZR; assumption).
  split; [|assumption].
  unfold pcm_dtype.
  destruct (Z.leb_spec (-32768) (truncate x)); [|lia].
  destruct (Z.leb_spec (truncate x) 32767); [reflexivity|lia].
Qed.

Lemma pcm_array_in_range a :
  (forall x, In x a -> Rabs x <= 32767) ->
  pcm_array a = Some (map truncate a).
Proof.
  induction a as [|x a IH]; intros Ha; [reflexivity|].
  cbn [pcm_array map].
  destruct (pcm_dtype_in_range x) as [-> _]; [apply Ha; now left|].
  rewrite IH; [reflexivity|]. intros y Hy. apply Ha. now right.
Qed.

(** X14: for reference waveforms within [[-1, 1]], [mod] turns either
    waveform into a block of as many samples, each within the 16-bit range
    (and within -32767 .. 32767), and the block read back by [dem]'s
    normalization is within 1/16384 of the waveform, sample by sample. *)
Theorem modulate_in_range (zero one : list R) (bit : nat) :
  (forall s, In s one \/ In s zero -> Rabs s <= 1) ->
  let data := if (bit =? 1)%nat then one else zero in
  exists pcm,
    modulate zero one bit = Some pcm /\
    length pcm = length data /\
    forall i, (i < length data)%nat ->
      (-32767 <= nth i pcm 0 <= 32767)%Z /\
      Rabs (nth i (normalize pcm) 0 - nth i data 0) < / 16384.
Proof.
  intros Hb data.
  assert (Hd : forall s, In s data -> Rabs s <= 1).
  { intros s Hs. apply Hb. unfold data in Hs.
    destruct (bit =? 1)%nat; [now left | now right]. }
  assert (Hs : forall x, In x (map (fun d => d * PCM_MAX) data) ->
                         Rabs x <= 32767).
  { intros x Hx. apply in_map_iff in Hx as (d & <- & Hin).
    rewrite PCM_MAX_value, Rabs_mult, (Rabs_pos_eq 32767) by lra.
    specialize (Hd d Hin). lra. }
  exists (map truncate (map (fun d => d * PCM_MAX) data)).
  split; [unfold modulate; now apply pcm_array_in_range|].
  split; [now rewrite !length_map|].
  intros i Hi.
  assert (Hin : In (nth i data 0) data) by now apply nth_In.
  rewrite map_map.
  rewrite (nth_map_any _ data 0 0%Z) by assumption.
  set (d := nth i data 0) in *.
  split.
  - apply pcm_dtype_in_range. apply Hs. apply in_map_iff. now exists d.
  - unfold normalize. rewrite map_map.
    rewrite (nth_map_default _ data 0) by assumption.
    fold d. rewrite PCM_MAX_value.
    destruct (truncate_spec (d * 32767)) as [Ht _].
    specialize (Hd d Hin).
    apply Rabs_def2 in Ht. apply Rabs_le_bounds in Hd.
    apply Rabs_def1.
    + apply Rmult_lt_reg_r with 32768; [lra|].
      replace ((IZR (truncate (d * 32767)) / (32767 + 1) - d) * 32768)
        with (IZR (truncate (d * 32767)) - d * 32767 - d) by field.
      lra.
    + apply Rmult_lt_reg_r with 32768; [lra|].
      replace ((IZR (truncate (d * 32767)) / (32767 + 1) - d) * 32768)
        with (IZR (truncate (d * 32767)) - d * 32767 - d) by field.
      lra.
Qed.

Lemma modulate_in_range_witness :
  exists pcm,
    modulate [/ 2; 0] [0; / 2] 1 = Some pcm /\
    length pcm = 2%nat /\
    forall i, (i < 2)%nat ->
      (-32767 <= nth i pcm 0 <= 32767)%Z /\
      Rabs (nth i (normalize pcm) 0 - nth i [0; / 2] 0) < / 16384.
Proof.
  apply (modulate_in_range [/ 2; 0] [0; / 2] 1).
  intros s [[<-|[<-|[]]]|[<-|[<-|[]]]]; unfold Rabs;
    destruct (Rcase_abs _); lra.
Defined.

End ModulationFacts.

(** ** Terminal mode *)

(** X15: on a terminal [setnoncanonical] clears in the local flags exactly
    the bits of [ICANON], keeps every other bit and every other attribute,
    and setting again changes nothing more; on a descriptor that is no
    terminal it raises. *)
Theorem setnoncanonical_clears_icanon (ICANON : Z) (attr : termios_attr) :
  setnoncanonical ICANON false attr = None /\
  exists attr',
    setnoncanonical ICANON true attr = Some attr' /\
    (forall i, (0 <= i)%Z ->
       Z.testbit (lflag attr') i
       = Z.testbit (lflag attr) i && negb (Z.testbit ICANON i)) /\
    Z.land (lflag attr') ICANON = 0%Z /\
    iflag attr' = iflag attr /\ oflag attr' = oflag attr /\
    cflag attr' = cflag attr /\ ispeed attr' = ispeed attr /\
    ospeed attr' = ospeed attr /\ cc attr' = cc attr /\
    setnoncanonical ICANON true attr' = Some attr'.
Proof.
  split; [reflexivity|].
  eexists. split; [reflexivity|]. cbn [lflag iflag oflag cflag ispeed ospeed cc].
  split.
  { intros i Hi. now rewrite Z.land_spec, Z.lnot_spec. }
  split.
  { rewrite <- Z.land_assoc, (Z.land_comm (Z.lnot ICANON)), Z.land_lnot_diag.
    apply Z.land_0_r. }
  repeat (split; [reflexivity|]).
  unfold setnoncanonical. cbn [lflag iflag oflag cflag ispeed ospeed cc].
  now rewrite <- Z.land_assoc, Z.land_diag.
Qed.

(** ** What [modxcor] computes *)

Section CorrelationFacts.

Local Open Scope R_scope.

Lemma rsum_app a b : rsum (a ++ b) = rsum a + rsum b.
Proof.
  unfold rsum. induction a as [|x a IH]; cbn [app fold_right]; [lra|].
  rewrite IH. lra.
Qed.

Lemma rsum_map_ext {A : Type} (f g : A -> R) (l : list A) :
  (forall i, In i l -> f i = g i) -> rsum (map f l) = rsum (map g l).
Proof.
  intros H. f_equal. apply map_ext_in. exact H.
Qed.

Lemma rsum_map_zero {A : Type} (f : A -> R) (l : list A) :
  (forall i, In i l -> f i = 0) -> rsum (map f l) = 0.
Proof.
  unfold rsum. induction l as [|a l IH]; intros H; [reflexivity|].
  cbn [map fold_right].
  rewrite H by now left. rewrite IH; [lra|].
  intros i Hi. apply H. now right.
Qed.

Lemma rsum_scale c l : rsum (map (Rmult c) l) = c * rsum l.
Proof.
  unfold rsum. induction l as [|a l IH]; cbn [map fold_right]; [ring|].
  rewrite IH. ring.
Qed.

(** Padding with zeros does not change what index [i] reads, the default
    being 0. *)
Lemma nth_resize a N i :
  (length a <= N)%nat -> nth i (resize a N) 0 = nth i a 0.
Proof.
  intros Ha. unfold resize. rewrite firstn_all2 by assumption.
  destruct (Nat.lt_ge_cases i (length a)) as [Hi|Hi].
  - now rewrite app_nth1.
  - rewrite app_nth2 by assumption.
    rewrite nth_repeat. now rewrite nth_overflow.
Qed.

Lemma nth_circular_convolution N x y j :
  (j < N)%nat ->
  nth j (circular_convolution N x y) 0
  = rsum (map (fun i => nth i x 0 * nth ((j + N - i) mod N) y 0) (seq 0 N)).
Proof.
  intros Hj. unfold circular_convolution.
  rewrite (nth_map_default _ _ 0%nat) by now rewrite length_seq.
  now rewrite seq_nth.
Qed.

(** With both arrays padded to [m + n], nothing of the circular
    convolution wraps around. *)
Lemma padded_convolution_linear x y j :
  (j < length x + length y)%nat ->
  nth j (circular_convolution (length x + length y)
           (resize x (length x + length y))
           (resize (rev y) (length x + length y))) 0
  = rsum (map (fun i => if (i <=? j)%nat
                        then nth i x 0 * nth (j - i) (rev y) 0 else 0)
              (seq 0 (length x))).
Proof.
  intros Hj. set (m := length x). set (n := length y).
  rewrite nth_circular_convolution by assumption.
  rewrite seq_app, map_app, rsum_app. cbn [Nat.add].
  rewrite (rsum_map_zero _ (seq m n)).
  - rewrite Rplus_0_r. apply rsum_map_ext. intros i Hi.
    apply in_seq in Hi.
    rewrite !nth_resize by (rewrite ?length_rev; fold m n; lia).
    destruct (Nat.leb_spec i j) as [Hij|Hij].
    + replace (j + (m + n) - i)%nat with ((j - i) + 1 * (m + n))%nat by lia.
      rewrite Nat.Div0.mod_add, Nat.mod_small by lia. reflexivity.
    + rewrite Nat.mod_small by lia.
      rewrite (nth_overflow (rev y)) by (rewrite length_rev; fold n; lia).
      ring.
  - intros i Hi. apply in_seq in Hi.
    rewrite nth_resize by (fold m; lia).
    rewrite (nth_overflow x) by (fold m; lia). ring.
Qed.

Lemma nth_slice_symmetric {A : Type} (z : list A) (h p : nat) (d : A) :
  (1 <= h)%nat -> (2 * h <= length z)%nat -> (p < length z - 2 * h)%nat ->
  nth p (slice z (Z.of_nat h) (- Z.of_nat h)) d = nth (h + p) z d.
Proof.
  intros Hh Hz Hp. unfold slice, slice_bound.
  destruct (Z.ltb_spec (Z.of_nat h) 0) as [H|_]; [lia|].
  destruct (Z.ltb_spec (- Z.of_nat h) 0) as [_|H]; [|lia].
  rewrite nth_firstn.
  destruct (Nat.ltb_spec p
              (Z.to_nat (Z.max 0 (Z.of_nat (length z) + - Z.of_nat h))
               - Nat.min (Z.to_nat (Z.of_nat h)) (length z))) as [_|H];
    [|lia].
  rewrite nth_skipn. f_equal. lia.
Qed.

Lemma modxcor_convolution (x y : list R) :
  (2 <= length y)%nat ->
  exists xc,
    modxcor x y = Some xc /\
    length xc = (length x + length y - 2 * (length y / 2))%nat /\
    forall p, (p < length xc)%nat ->
      nth p xc 0
      = rsum (map (fun i =>
                     if (i <=? p + length y / 2)%nat
                     then nth i x 0 * nth (p + length y / 2 - i) (rev y) 0
                     else 0)
                  (seq 0 (length x))).
Proof.
  intros Hy. unfold modxcor.
  destruct (Nat.eqb_spec (length x + length y) 0) as [H|_]; [lia|].
  eexists. split; [reflexivity|].
  pose proof (Nat.Div0.mul_div_le (length y) 2) as Hd.
  assert (Hh : (1 <= length y / 2)%nat)
    by (apply Nat.div_le_lower_bound; lia).
  assert (Hl : length (slice (circular_convolution (length x + length y)
                                (resize x (length x + length y))
                                (resize (rev y) (length x + length y)))
                         (Z.of_nat (length y / 2))
                         (- Z.of_nat (length y / 2)))
               = (length x + length y - 2 * (length y / 2))%nat).
  { rewrite length_slice_symmetric;
      rewrite ?length_circular_convolution; lia. }
  split; [exact Hl|].
  intros p Hp. rewrite Hl in Hp.
  rewrite nth_slice_symmetric;
    rewrite ?length_circular_convolution; try lia.
  rewrite padded_convolution_linear by lia.
  apply rsum_map_ext. intros i _.
  now rewrite (Nat.add_comm (length y / 2) p).
Qed.

(** X16: against a reference [y] of [n >= 2] samples, [modxcor] returns
    [m + n - 2 * (n / 2)] values; the value at position [p] is the sum over
    the block of [x[i] * y[::-1][p + n / 2 - i]], the linear convolution of
    the block with the reversed reference at index [p + n / 2]: the zero
    padding keeps every wrapped-around product out. *)
Theorem modxcor_linear_convolution (x y : list R) :
  (2 <= length y)%nat ->
  exists xc,
    modxcor x y = Some xc /\
    length xc = (length x + length y - 2 * (length y / 2))%nat /\
    forall p, (p < length xc)%nat ->
      nth p xc 0
      = rsum (map (fun i =>
                     if (i <=? p + length y / 2)%nat
                     then nth i x 0 * nth (p + length y / 2 - i) (rev y) 0
                     else 0)
                  (seq 0 (length x))).
Proof. exact (modxcor_convolution x y). Qed.

Lemma modxcor_linear_convolution_witness :
  exists xc,
    modxcor [1; 2; 3] [4; 5; 6] = Some xc /\
    length xc = 4%nat /\
    forall p, (p < length xc)%nat ->
      nth p xc 0
      = rsum (map (fun i =>
                     if (i <=? p + 1)%nat
                     then nth i [1; 2; 3] 0 * nth (p + 1 - i) [6; 5; 4] 0
                     else 0)
                  [0; 1; 2]%nat).
Proof.
  apply (modxcor_linear_convolution [1; 2; 3] [4; 5; 6]). cbn [length]. lia.
Defined.

End CorrelationFacts.

(** ** When [dem] raises, and when it stays silent *)

Section ErrorFacts.

Local Open Scope R_scope.

Lemma modxcor_empty_iff x y :
  (modxcor x y = None \/ modxcor x y = Some [])
  <-> no_correlation (length x) (length y) = true.
Proof.
  unfold no_correlation.
  destruct (Nat.leb_spec (length y) 1) as [Hy|Hy]; cbn [orb].
  - split; [reflexivity|]. intros _.
    unfold modxcor.
    destruct (Nat.eqb_spec (length x + length y) 0) as [H|_]; [now left|].
    right. replace (length y / 2)%nat with 0%nat; [reflexivity|].
    destruct (length y) as [|[|n]]; [reflexivity | reflexivity | lia].
  - destruct (modxcor_convolution x y ltac:(lia)) as (xc & E & L & _).
    rewrite E.
    pose proof (Nat.div_mod_eq (length y) 2) as Hd.
    assert (L' : length xc = (length x + length y mod 2)%nat) by lia.
    clear L Hd.
    destruct (Nat.eqb_spec (length x) 0) as [Hx|Hx],
             (Nat.eqb_spec (length y mod 2) 0) as [Hm|Hm]; cbn [andb].
    + split; [reflexivity|]. intros _. right. f_equal.
      destruct xc; [reflexivity | cbn [length] in L'; lia].
    + split; [|discriminate]. intros [H|H]; [discriminate|].
      injection H as ->. cbn [length] in L'. lia.
    + split; [|discriminate]. intros [H|H]; [discriminate|].
      injection H as ->. cbn [length] in L'. lia.
    + split; [|discriminate]. intros [H|H]; [discriminate|].
      injection H as ->. cbn [length] in L'. lia.
Qed.

Lemma score_none_iff xc : score xc = None <-> xc = [].
Proof. destruct xc; split; intros H; (reflexivity || discriminate). Qed.

(** X19: [dem] raises exactly when one of the two correlation sequences
    has no value: a reference waveform has fewer than two samples, or the
    captured block is empty and a reference has an even number of samples;
    in every other case it returns. *)
Theorem dem_raises_iff (zero one : list R) (bits : list nat)
  (pcm : list Z) :
  dem zero one bits pcm = None
  <-> no_correlation (length pcm) (length zero) = true \/
      no_correlation (length pcm) (length one) = true.
Proof.
  rewrite <- (length_normalize pcm).
  rewrite <- !modxcor_empty_iff.
  unfold dem.
  destruct (modxcor (normalize pcm) zero) as [xc0|];
    [|split; [intros _; left; now left | reflexivity]].
  destruct (modxcor (normalize pcm) one) as [xc1|];
    [|split; [intros _; right; now left | reflexivity]].
  destruct (score xc0) as [k0|] eqn:S0.
  - destruct (score xc1) as [k1|] eqn:S1.
    + split; [discriminate|].
      intros [[H|H]|[H|H]]; try discriminate; injection H as ->;
        discriminate.
    + apply score_none_iff in S1 as ->.
      split; [intros _; right; now right | reflexivity].
  - apply score_none_iff in S0 as ->.
    split; [intros _; left; now right | reflexivity].
Qed.

(** X20: with two samples per symbol the receiver is deaf: for references
    of two samples and a captured block of two samples, whatever their
    values, [dem] returns without putting any bit. *)
Theorem dem_silent_on_two_samples (zero one : list R) (bits : list nat)
  (pcm : list Z) :
  length zero = 2%nat -> length one = 2%nat -> length pcm = 2%nat ->
  dem zero one bits pcm = Some bits.
Proof.
  intros Hz Ho Hp.
  destruct zero as [|z0 [|z1 [|? ?]]]; try discriminate.
  destruct one as [|o0 [|o1 [|? ?]]]; try discriminate.
  destruct pcm as [|p0 [|p1 [|? ?]]]; try discriminate.
  apply dem_two_samples.
Qed.

Lemma dem_silent_on_two_samples_witness :
  dem [1; 0] [0; 1] [1%nat; 0%nat] [32767; 0]%Z = Some [1%nat; 0%nat].
Proof.
  apply (dem_silent_on_two_samples [1; 0] [0; 1] [1%nat; 0%nat]
           [32767; 0]%Z); reflexivity.
Defined.

End ErrorFacts.

(** ** The matched filter *)

Section MatchedFilterFacts.

Local Open Scope R_scope.

Lemma rsum_permutation l l' : Permutation l l' -> rsum l = rsum l'.
Proof.
  unfold rsum. induction 1; cbn [fold_right]; lra.
Qed.

Lemma rsum_le {A : Type} (f g : A -> R) (l : list A) :
  (forall i, In i l -> f i <= g i) -> rsum (map f l) <= rsum (map g l).
Proof.
  unfold rsum. induction l as [|a l IH]; intros H; cbn [map fold_right]; [lra|].
  assert (f a <= g a) by (apply H; now left).
  assert (fold_right Rplus 0 (map f l) <= fold_right Rplus 0 (map g l))
    by (apply IH; intros i Hi; apply H; now right).
  lra.
Qed.

Lemma rsum_plus {A : Type} (f g : A -> R) (l : list A) :
  rsum (map (fun i => f i + g i) l) = rsum (map f l) + rsum (map g l).
Proof.
  unfold rsum. induction l as [|a l IH]; cbn [map fold_right]; [lra|].
  rewrite IH. lra.
Qed.

Lemma rsum_opp {A : Type} (f : A -> R) (l : list A) :
  rsum (map (fun i => - f i) l) = - rsum (map f l).
Proof.
  unfold rsum. induction l as [|a l IH]; cbn [map fold_right]; [lra|].
  rewrite IH. lra.
Qed.

Lemma map_nth_all (l : list R) :
  map (fun i => nth i l 0) (seq 0 (length l)) = l.
Proof.
  apply (nth_ext _ _ 0 0).
  - now rewrite length_map, length_seq.
  - intros i Hi. rewrite length_map, length_seq in Hi.
    rewrite (nth_map_default _ _ 0%nat) by now rewrite length_seq.
    now rewrite seq_nth.
Qed.

(** Summing the squares over the indices of a padded array gives the
    energy of the array. *)
Lemma energy_padded l N :
  (length l <= N)%nat ->
  rsum (map (fun i => nth i l 0 * nth i l 0) (seq 0 N)) = energy l.
Proof.
  intros Hl. replace N with (length l + (N - length l))%nat by lia.
  rewrite seq_app, map_app, rsum_app. cbn [Nat.add].
  rewrite (rsum_map_zero _ (seq (length l) (N - length l))).
  - rewrite Rplus_0_r. unfold energy.
    transitivity
      (rsum (map (fun v => v * v)
               (map (fun i => nth i l 0) (seq 0 (length l))))).
    + now rewrite map_map.
    + now rewrite map_nth_all.
  - intros i Hi. apply in_seq in Hi.
    rewrite nth_overflow by lia. ring.
Qed.

Lemma energy_rev l : energy (rev l) = energy l.
Proof.
  unfold energy. apply rsum_permutation.
  rewrite map_rev. apply Permutation_sym, Permutation_rev.
Qed.

Lemma wrap_index_mod N j i :
  (j < N)%nat -> (i < N)%nat -> ((j + N - i) mod N)%nat = wrap_index N j i.
Proof.
  intros Hj Hi. unfold wrap_index.
  destruct (Nat.ltb_spec i N) as [_|]; [|lia].
  destruct (Nat.leb_spec i j).
  - replace (j + N - i)%nat with ((j - i) + 1 * N)%nat by lia.
    rewrite Nat.Div0.mod_add. apply Nat.mod_small. lia.
  - apply Nat.mod_small. lia.
Qed.

Lemma wrap_index_permutation N j :
  (j < N)%nat -> Permutation (map (wrap_index N j) (seq 0 N)) (seq 0 N).
Proof.
  intros Hj. apply nat_bijection_Permutation.
  - intros i Hi. unfold wrap_index.
    destruct (Nat.ltb_spec i N); [|lia]. destruct (Nat.leb_spec i j); lia.
  - intros a b. unfold wrap_index.
    destruct (Nat.ltb_spec a N), (Nat.ltb_spec b N),
             (Nat.leb_spec a j), (Nat.leb_spec b j); lia.
Qed.

(** Every value of a circular convolution lies within half the sum of the
    two energies. *)
Lemma circular_convolution_bound N x y j :
  (length x <= N)%nat -> (length y <= N)%nat -> (j < N)%nat ->
  Rabs (nth j (circular_convolution N x y) 0) <= (energy x + energy y) / 2.
Proof.
  intros Hx Hy Hj. rewrite nth_circular_convolution by assumption.
  set (a := fun i : nat => nth i x 0).
  set (b := fun i : nat => nth (wrap_index N j i) y 0).
  assert (E : rsum (map (fun i => nth i x 0 * nth ((j + N - i) mod N) y 0)
                        (seq 0 N))
              = rsum (map (fun i => a i * b i) (seq 0 N))).
  { apply rsum_map_ext. intros i Hi. apply in_seq in Hi.
    unfold a, b. now rewrite wrap_index_mod by lia. }
  rewrite E.
  assert (S : rsum (map (fun i => (a i * a i) / 2 + (b i * b i) / 2) (seq 0 N))
              = (energy x + energy y) / 2).
  { rewrite rsum_plus.
    assert (Ea : rsum (map (fun i => a i * a i / 2) (seq 0 N)) = energy x / 2).
    { rewrite <- (energy_padded x N Hx).
      rewrite <- (map_map (fun i => nth i x 0 * nth i x 0) (fun v => v / 2)).
      unfold Rdiv at 1.
      rewrite (map_ext (fun v => v * / 2) (Rmult (/ 2))) by (intros; ring).
      rewrite rsum_scale. unfold Rdiv. ring. }
    assert (Eb : rsum (map (fun i => b i * b i / 2) (seq 0 N)) = energy y / 2).
    { rewrite <- (energy_padded y N Hy).
      transitivity
        (rsum (map (Rmult (/ 2))
                 (map (fun k => nth k y 0 * nth k y 0)
                      (map (wrap_index N j) (seq 0 N))))).
      - rewrite !map_map. apply rsum_map_ext. intros i _. unfold b, Rdiv. ring.
      - rewrite rsum_scale.
        rewrite (rsum_permutation _
                   (map (fun k => nth k y 0 * nth k y 0) (seq 0 N)))
          by (apply Permutation_map, wrap_index_permutation; assumption).
        unfold Rdiv. ring. }
    rewrite Ea, Eb. unfold Rdiv. ring. }
  assert (Hlo : rsum (map (fun i => - (a i * a i / 2 + b i * b i / 2))
                          (seq 0 N))
                <= rsum (map (fun i => a i * b i) (seq 0 N))).
  { apply rsum_le. intros i _. cbn beta.
    pose proof (Rle_0_sqr (a i + b i)) as Hs. unfold Rsqr in Hs. lra. }
  assert (Hhi : rsum (map (fun i => a i * b i) (seq 0 N))
                <= rsum (map (fun i => a i * a i / 2 + b i * b i / 2)
                             (seq 0 N))).
  { apply rsum_le. intros i _. cbn beta.
    pose proof (Rle_0_sqr (a i - b i)) as Hs. unfold Rsqr in Hs. lra. }
  rewrite rsum_opp in Hlo. rewrite S in Hlo, Hhi.
  apply Rabs_le. lra.
Qed.

Lemma np_max_attained xc v hi :
  In v xc -> (forall u, In u xc -> u <= v) -> np_max xc = Some hi -> hi = v.
Proof.
  destruct xc as [|x rest]; [intros []|]. cbn [np_max].
  intros Hv Hub E. injection E as <-.
  destruct (fold_Rmax_spec rest x) as [Hin Hall].
  apply Rle_antisym; [now apply Hub | now apply Hall].
Qed.

(** The correlation of a signal with itself: bounded by its energy, which
    it reaches at zero lag. *)
Lemma autocorrelation y :
  (2 <= length y)%nat ->
  exists xc,
    modxcor y y = Some xc /\
    (length y - 1 - length y / 2 < length xc)%nat /\
    nth (length y - 1 - length y / 2) xc 0 = energy y /\
    (forall p, (p < length xc)%nat -> Rabs (nth p xc 0) <= energy y) /\
    np_max xc = Some (energy y).
Proof.
  intros Hy.
  destruct (modxcor_convolution y y Hy) as (xc & E & L & V).
  exists xc. split; [exact E|].
  pose proof (Nat.Div0.mul_div_le (length y) 2) as Hd.
  assert (Hh : (1 <= length y / 2)%nat)
    by (apply Nat.div_le_lower_bound; lia).
  assert (Hpk : (length y - 1 - length y / 2 < length xc)%nat) by lia.
  assert (Epk : nth (length y - 1 - length y / 2) xc 0 = energy y).
  { rewrite V by assumption.
    rewrite <- (energy_padded y (length y)) by lia.
    apply rsum_map_ext. intros i Hi. apply in_seq in Hi.
    replace (length y - 1 - length y / 2 + length y / 2)%nat
      with (length y - 1)%nat by lia.
    destruct (Nat.leb_spec i (length y - 1)); [|lia].
    rewrite rev_nth by lia. do 2 f_equal. lia. }
  assert (Hb : forall p, (p < length xc)%nat -> Rabs (nth p xc 0) <= energy y).
  { intros p Hp.
    assert (Ex : xc = slice (circular_convolution (length y + length y)
                               (resize y (length y + length y))
                               (resize (rev y) (length y + length y)))
                            (Z.of_nat (length y / 2))
                            (- Z.of_nat (length y / 2))).
    { unfold modxcor in E.
      destruct (length y + length y =? 0)%nat; [discriminate|].
      now injection E. }
    rewrite Ex.
    rewrite nth_slice_symmetric;
      rewrite ?length_circular_convolution; try lia.
    pose proof (circular_convolution_bound (length y + length y)
                  (resize y (length y + length y))
                  (resize (rev y) (length y + length y))
                  (length y / 2 + p)) as B.
    assert (Lr : forall a, (length a <= length y + length y)%nat ->
                 length (resize a (length y + length y))
                 = (length y + length y)%nat).
    { intros a Ha. unfold resize.
      rewrite length_app, length_firstn, repeat_length. lia. }
    assert (Er : forall a, (length a <= length y + length y)%nat ->
                 energy (resize a (length y + length y)) = energy a).
    { intros a Ha. unfold resize. rewrite firstn_all2 by assumption.
      unfold energy. rewrite map_app, rsum_app, map_repeat.
      assert (Z0 : forall k, rsum (repeat (0 * 0) k) = 0).
      { unfold rsum. induction k as [|k IHk]; cbn [repeat fold_right];
          [reflexivity | rewrite IHk; ring]. }
      rewrite Z0. ring. }
    rewrite !Lr, !Er, energy_rev in B by (rewrite ?length_rev; lia).
    replace ((energy y + energy y) / 2) with (energy y) in B by field.
    apply B; lia. }
  split; [exact Hpk|]. split; [exact Epk|]. split; [exact Hb|].
  destruct (np_max xc) as [hi|] eqn:Em.
  - f_equal. apply (np_max_attained xc _ hi); [|  |exact Em].
    + rewrite <- Epk. now apply nth_In.
    + intros u Hu. apply (In_nth _ _ 0) in Hu as (p & Hp & <-).
      eapply Rle_trans; [apply Rle_abs | now apply Hb].
  - destruct xc; [cbn [length] in Hpk; lia | discriminate].
Qed.

(** X21: the matched filter at zero noise: for a block of [n >= 2]
    samples that equals the reference it is correlated with, no value of
    the correlation sequence exceeds the energy of the reference in
    absolute value, the value at position [n - 1 - n / 2] (zero lag) is that
    energy, and [numpy.max] of the sequence is that energy. *)
Theorem modxcor_peak_at_zero_lag (pcm : list Z) (y : list R) :
  (2 <= length y)%nat -> normalize pcm = y ->
  exists xc,
    modxcor (normalize pcm) y = Some xc /\
    nth (length y - 1 - length y / 2) xc 0 = energy y /\
    (forall p, (p < length xc)%nat -> Rabs (nth p xc 0) <= energy y) /\
    np_max xc = Some (energy y).
Proof.
  intros Hy ->. destruct (autocorrelation y Hy) as (xc & E & _ & P & B & M).
  exists xc. repeat split; assumption.
Qed.

Lemma modxcor_peak_at_zero_lag_witness :
  exists xc,
    modxcor (normalize [0; 16384; -16384]%Z) (normalize [0; 16384; -16384]%Z)
    = Some xc /\
    nth 1 xc 0 = energy (normalize [0; 16384; -16384]%Z) /\
    (forall p, (p < length xc)%nat ->
       Rabs (nth p xc 0) <= energy (normalize [0; 16384; -16384]%Z)) /\
    np_max xc = Some (energy (normalize [0; 16384; -16384]%Z)).
Proof.
  apply (modxcor_peak_at_zero_lag [0; 16384; -16384]%Z
           (normalize [0; 16384; -16384]%Z)); [simpl; lia | reflexivity].
Defined.

End MatchedFilterFacts.

(** ** The length of a transmission *)

Lemma tobits_length_bounds bytes :
  Forall (fun c => c <= 255) bytes ->
  length bytes <= length (tobits bytes) <= 13 * length bytes.
Proof.
  induction 1 as [|c bytes Hc _ IH]; [cbn; lia|].
  unfold tobits in *. cbn [flat_map]. rewrite length_app.
  assert (Hl : 1 <= length (encode c) <= 13).
  { rewrite encode_length. pose proof (while_F_byte c Hc). lia. }
  cbn [length]. lia.
Qed.

(** X22: for an input of character codes up to 255 the transmit loop
    writes one block per bit, at least one and at most thirteen blocks for
    each byte that [readbytes] yields. *)
Theorem tx_block_count (zero one : list R) (chars : list nat) (tty : bool) :
  Forall (fun c => c <= 255) chars ->
  length (readbytes chars tty) <= length (tx zero one chars tty)
  /\ length (tx zero one chars tty) <= 13 * length (readbytes chars tty).
Proof.
  intros Hc. unfold tx. rewrite length_map.
  apply tobits_length_bounds.
  apply Forall_forall. intros c Hin.
  apply readbytes_incl in Hin. revert c Hin. now apply Forall_forall.
Qed.

Lemma tx_block_count_witness :
  Forall (fun c => c <= 255) [104; 105; 4; 33] /\
  length (readbytes [104; 105; 4; 33] true)
  <= length (tx [] [] [104; 105; 4; 33] true)
  /\ length (tx [] [] [104; 105; 4; 33] true)
     <= 13 * length (readbytes [104; 105; 4; 33] true).
Proof.
  assert (H : Forall (fun c => c <= 255) [104; 105; 4; 33])
    by (repeat constructor; lia).
  split; [exact H | apply (tx_block_count [] [] [104; 105; 4; 33] true H)].
Defined.

(** ** The decision on a block without noise *)

Section NoiselessFacts.

Local Open Scope R_scope.



(** X23: when the two reference waveforms are the same array, as they
    are for a waveform that is its own reversal, [dem] never puts a bit:
    whatever the block, it raises or returns the queue as it was. *)
Theorem dem_identical_references (w : list R) (bits : list nat)
  (pcm : list Z) :
  dem w w bits pcm = None \/ dem w w bits pcm = Some bits.
Proof.
  unfold dem.
  destruct (modxcor (normalize pcm) w) as [xc|]; [|now left].
  destruct (score xc) as [k|] eqn:S; [|now left].
  right. f_equal. rewrite decide_bits_emitted.
  pose proof (score_nonnegative xc k S) as P.
  unfold emitted.
  destruct (xgt k (xdouble k)) eqn:G.
  - now rewrite (xgt_exclusive k k P P G) in G.
  - cbn [app]. apply app_nil_r.
Qed.

End NoiselessFacts.
